(** * Race simulation engine of the horse-racing game

    Shallow embedding of the pure race physics ([raceAnimation] helpers),
    the schedule and roster generators, and the game store transitions
    ([useGameStore]).  A JavaScript [number] is modelled as an exact
    rational [Q] (the code never relies on rounding), an optional field
    [x?: number] as [option Q], and [Math.random()] as a supply of draws
    [rnd : nat -> Q] indexed by a counter that the code threads along. *)

From Stdlib Require Import QArith Qround Lqa ZArith String Lia.
From stdpp Require Import base list list_relations sorting pretty.

Open Scope Q_scope.

(** ** JavaScript primitives used by the code *)

(** [a < b] on numbers. *)
Definition js_lt (a b : Q) : bool := negb (Qle_bool b a).

(** [a >= b] on numbers. *)
Definition js_ge (a b : Q) : bool := Qle_bool b a.

(** [Math.min(a, b)] on (non-NaN) numbers. *)
Definition js_min (a b : Q) : Q := if Qle_bool a b then a else b.

(** [x || d] for an optional number: [undefined] and [0] are falsy. *)
Definition js_or (x : option Q) (d : Q) : Q :=
  match x with
  | Some v => if Qeq_bool v 0 then d else v
  | None => d
  end.

(** ** Types ([types/horse.ts], [types/race.ts], [types/game.ts]) *)

Record Horse := mkHorse {
  id : string;
  name : string;
  condition : Q;
  color : option string  (** [undefined] when the palette lookup misses *)
}.

Record HorsePosition := mkHorsePosition {
  horseId : string;
  position : Q;
  lane : Z;
  speed : Q;
  finishTime : option Q
}.

(** ** Race physics ([utils/raceAnimation.ts]) *)

Definition BASE_DISTANCE : Q := 1200.
Definition SPEED_DIVISOR : Q := 50.

Definition calculateNewPosition (hp : HorsePosition)
    (deltaTime distanceMultiplier speedVariation currentTime : Q)
    : HorsePosition :=
  match finishTime hp with
  | Some _ => hp
  | None =>
      let moveAmount :=
        speed hp * speedVariation *
        (deltaTime / (SPEED_DIVISOR * distanceMultiplier)) in
      let newPosition := js_min (position hp + moveAmount) 100 in
      let justFinished := js_lt (position hp) 100 && js_ge newPosition 100 in
      {| horseId := horseId hp;
         position := newPosition;
         lane := lane hp;
         speed := speed hp;
         finishTime := if justFinished then Some currentTime
                       else finishTime hp |}
  end.

Definition calculateDistanceMultiplier (distance : Q) : Q :=
  distance / BASE_DISTANCE.

Definition checkAllFinished (positions : list HorsePosition) : bool :=
  forallb (fun hp => match finishTime hp with Some _ => true | None => false end)
    positions.

(** ** Speed derivation ([store/helpers/raceHelpers.ts]) *)

Definition calculateHorseSpeed (condition : Q) : Q :=
  0.5 + (condition / 100) * 0.5.

Example calculateHorseSpeed_80 : calculateHorseSpeed 80 == 0.9.
Proof. reflexivity. Qed.

Example calculateNewPosition_step :
  position (calculateNewPosition
    (mkHorsePosition "h" 0 1 1 None) 16 1 1 0) == 0.32.
Proof. reflexivity. Qed.

(** One animation frame of the race track: every participant is updated
    in lane order with its own [generateSpeedVariation()] draw
    ([variation i] for the [i]-th participant) and the frame's [now]. *)
Definition raceFrame (positions : list HorsePosition)
    (deltaTime distanceMultiplier now : Q) (variation : nat -> Q)
    : list HorsePosition :=
  imap (fun i hp =>
    calculateNewPosition hp deltaTime distanceMultiplier (variation i) now)
    positions.

(** A frame's inputs: [deltaTime], [distanceMultiplier], [now] and the
    per-participant speed variations. *)
Record Frame := mkFrame {
  frameDelta : Q;
  frameMultiplier : Q;
  frameNow : Q;
  frameVariation : nat -> Q
}.

Fixpoint runFrames (frames : list Frame) (positions : list HorsePosition)
    : list HorsePosition :=
  match frames with
  | [] => positions
  | f :: rest =>
      runFrames rest (raceFrame positions (frameDelta f) (frameMultiplier f)
                        (frameNow f) (frameVariation f))
  end.

(** The successive states of the participant in lane index [i] across
    frames: [runFrames] restricted to one participant. *)
Fixpoint runLane (frames : list Frame) (i : nat) (hp : HorsePosition)
    : HorsePosition :=
  match frames with
  | [] => hp
  | f :: rest =>
      runLane rest i (calculateNewPosition hp (frameDelta f) (frameMultiplier f)
                        (frameVariation f i) (frameNow f))
  end.

(** Admissible frame inputs: a non-negative [deltaTime], a positive
    [distanceMultiplier] and non-negative speed variations. *)
Definition frame_ok (f : Frame) : Prop :=
  0 <= frameDelta f /\ 0 < frameMultiplier f /\
  (forall i : nat, 0 <= frameVariation f i).

(** ** [Array.prototype.sort] *)

(** [array.sort(comparefn)].  The comparator may draw random numbers, so
    it threads a state [S].  The engine sorts arrays of this size by
    binary insertion; it is modelled as insertion sort that places each
    element [x], taken in input order, before the first already sorted [y]
    with [comparefn(x, y) < 0], which is the placement binary insertion
    computes. *)
Fixpoint sort_insert {A S : Type} (comparefn : A -> A -> S -> Q * S)
    (x : A) (sorted : list A) (s : S) : list A * S :=
  match sorted with
  | [] => ([x], s)
  | y :: rest =>
      let '(c, s1) := comparefn x y s in
      if js_lt c 0 then (x :: y :: rest, s1)
      else let '(r, s2) := sort_insert comparefn x rest s1 in (y :: r, s2)
  end.

Fixpoint sort_from {A S : Type} (comparefn : A -> A -> S -> Q * S)
    (sorted todo : list A) (s : S) : list A * S :=
  match todo with
  | [] => (sorted, s)
  | x :: rest =>
      let '(sorted', s1) := sort_insert comparefn x sorted s in
      sort_from comparefn sorted' rest s1
  end.

Definition js_sort {A S : Type} (comparefn : A -> A -> S -> Q * S)
    (array : list A) (s : S) : list A * S :=
  sort_from comparefn [] array s.

(** A comparator that draws no random numbers. *)
Definition pure_cmp {A : Type} (f : A -> A -> Q) : A -> A -> unit -> Q * unit :=
  fun a b s => (f a b, s).

(** [array.find(pred)]. *)
Fixpoint js_find {A : Type} (pred : A -> bool) (l : list A) : option A :=
  match l with
  | [] => None
  | x :: rest => if pred x then Some x else js_find pred rest
  end.

(** ** Ranking ([sortByFinishTime], [compileRaceResults]) *)

Module RaceResultEntry.
Record t := mk {
  horseId : string;
  position : Z;
  time : Q;
  horse : option Horse  (** [horse!]: [undefined] when the lookup misses *)
}.
End RaceResultEntry.

Definition sortByFinishTime (positions : list HorsePosition) : list HorsePosition :=
  fst (js_sort
         (pure_cmp (fun a b => js_or (finishTime a) 0 - js_or (finishTime b) 0))
         positions tt).

Definition compileRaceResults (positions : list HorsePosition)
    (horses : list Horse) (animationStartTime : option Q) (currentTime : Q)
    : list RaceResultEntry.t :=
  imap (fun index hp =>
    {| RaceResultEntry.horseId := horseId hp;
       RaceResultEntry.position := Z.of_nat index + 1;
       RaceResultEntry.time :=
         js_or (finishTime hp) currentTime - js_or animationStartTime 0;
       RaceResultEntry.horse :=
         js_find (fun h => String.eqb (id h) (horseId hp)) horses |})
    (sortByFinishTime positions).

(** ** Race and game types ([types/race.ts], [types/game.ts]) *)

Module RaceStatus.
Inductive t := PENDING | RUNNING | COMPLETED.
End RaceStatus.

Module GameState.
Inductive t := IDLE | HORSES_READY | SCHEDULE_READY | RACING | PAUSED | COMPLETED.

Definition eqb (a b : t) : bool :=
  match a, b with
  | IDLE, IDLE | HORSES_READY, HORSES_READY | SCHEDULE_READY, SCHEDULE_READY
  | RACING, RACING | PAUSED, PAUSED | COMPLETED, COMPLETED => true
  | _, _ => false
  end.
End GameState.

Definition ROUND_DISTANCES : list Z := [1200; 1400; 1600; 1800; 2000; 2200]%Z.

Module Race.
Record t := mk {
  roundNumber : Z;
  distance : Z;
  horseIds : list string;
  status : RaceStatus.t;
  startTime : option Q;
  endTime : option Q
}.
End Race.

Module RaceResult.
Record t := mk {
  roundNumber : Z;
  distance : Z;
  results : list RaceResultEntry.t;
  completedAt : Q
}.
End RaceResult.

Record RaceExecutionState := mkRaceExecution {
  currentRace : option Race.t;
  horsePositions : list HorsePosition;
  isAnimating : bool;
  animationStartTime : option Q
}.

Record GameStoreState := mkGameStore {
  gameState : GameState.t;
  horses : list Horse;
  schedule : option (list Race.t);
  raceExecution : RaceExecutionState;
  results : list RaceResult.t;
  currentRoundIndex : nat
}.

(** ** Schedule helpers ([store/helpers/scheduleHelpers.ts]) *)

(** [[shuffled[i], shuffled[j]] = [shuffled[j], shuffled[i]]]: the right
    side is read first, then [shuffled[i]] and [shuffled[j]] are written.
    Both indices are in range in [shuffleArray] (see
    [shuffle_index_in_range]); out of range the array is left as is. *)
Definition swap {A : Type} (shuffled : list A) (i j : nat) : list A :=
  match shuffled !! i, shuffled !! j with
  | Some xi, Some xj => <[j:=xi]> (<[i:=xj]> shuffled)
  | _, _ => shuffled
  end.

(** [j = Math.floor(Math.random() * (i + 1))]. *)
Definition shuffleIndex (r : Q) (i : nat) : nat :=
  Z.to_nat (Qfloor (r * inject_Z (Z.of_nat i + 1)%Z)).

(** The loop [for (let i = len - 1; i > 0; i--)], from index [i] down. *)
Fixpoint shuffleLoop {A : Type} (rnd : nat -> Q) (i : nat) (shuffled : list A)
    (s : nat) : list A * nat :=
  match i with
  | O => (shuffled, s)
  | S i' => shuffleLoop rnd i' (swap shuffled i (shuffleIndex (rnd s) i)) (S s)
  end.

Definition shuffleArray {A : Type} (rnd : nat -> Q) (array : list A) (s : nat)
    : list A * nat :=
  shuffleLoop rnd (length array - 1)%nat array s.

Definition selectRandomHorses (rnd : nat -> Q) (horses : list Horse) (s : nat)
    : list string * nat :=
  let '(shuffled, s1) := shuffleArray rnd horses s in
  (map id (take 10%nat shuffled), s1).

(** [ROUND_DISTANCES.map((distance, index) => ...)], from [index] on. *)
Fixpoint createRaces (rnd : nat -> Q) (horses : list Horse) (index : nat)
    (distances : list Z) (s : nat) : list Race.t * nat :=
  match distances with
  | [] => ([], s)
  | distance :: rest =>
      let '(ids, s1) := selectRandomHorses rnd horses s in
      let '(races, s2) := createRaces rnd horses (S index) rest s1 in
      ({| Race.roundNumber := (Z.of_nat index + 1)%Z;
          Race.distance := distance;
          Race.horseIds := ids;
          Race.status := RaceStatus.PENDING;
          Race.startTime := None;
          Race.endTime := None |} :: races, s2)
  end.

Definition createRaceSchedule (rnd : nat -> Q) (horses : list Horse) (s : nat)
    : list Race.t * nat :=
  createRaces rnd horses 0 ROUND_DISTANCES s.

(** ** Roster generator ([utils/horseGenerator.ts]) *)

Definition HORSE_NAMES : list string :=
  ["Gülbatur"; "Bold Pilot"; "Karayel"; "Sergen Yalçin"; "Turbo";
   "Yavuzhan"; "Özgünhan"; "Caş"; "Hizlitay"; "Demirklir"; "Altaha";
   "Sakarya"; "Şahinkaya"; "Baturşah"; "Karaüzüm"; "Kafkasli"; "Aslankaya";
   "Yildirimhan"; "Bozkurt"]%string.

Definition HORSE_COLORS : list string :=
  ["#FF6B6B"; "#4ECDC4"; "#45B7D1"; "#FFA07A"; "#98D8C8"; "#F7DC6F";
   "#BB8FCE"; "#85C1E2"; "#F8B739"; "#52BE80"; "#EC7063"; "#5DADE2";
   "#F1948A"; "#82E0AA"; "#F4D03F"; "#AF7AC5"; "#76D7C4"; "#F5B041";
   "#E74C3C"; "#3498DB"]%string.

(** [Math.floor(Math.random() * (max - min + 1)) + min]. *)
Definition randomInt (rnd : nat -> Q) (min max : Z) (s : nat) : Z * nat :=
  ((Qfloor (rnd s * inject_Z (max - min + 1)%Z) + min)%Z, S s).

(** [`horse_${index + 1}`]. *)
Definition generateHorseId (index : nat) : string :=
  "horse_" +:+ pretty (S index).

(** [allNames.slice(0, 20).map((name, index) => ...)], from [index] on. *)
Fixpoint buildHorses (rnd : nat -> Q) (shuffledColors : list string)
    (index : nat) (names : list string) (s : nat) : list Horse * nat :=
  match names with
  | [] => ([], s)
  | nm :: rest =>
      let '(cond, s1) := randomInt rnd 1 100 s in
      let '(hs, s2) := buildHorses rnd shuffledColors (S index) rest s1 in
      ({| id := generateHorseId index;
          name := nm;
          condition := inject_Z cond;
          color := shuffledColors !! index |} :: hs, s2)
  end.

Definition generateHorses (rnd : nat -> Q) (s : nat) : list Horse * nat :=
  let names := HORSE_NAMES in
  let allNames :=
    if (length names <? 20)%nat then names ++ ["Thunder"%string] else names in
  let '(shuffledColors, s1) :=
    js_sort (fun _ _ s' => (rnd s' - 0.5, S s')) HORSE_COLORS s in
  buildHorses rnd shuffledColors 0 (take 20%nat allNames) s1.

(** ** Game store ([store/useGameStore.ts]) *)

(** [Date.now()] is passed in as [now]; [set(partial)] replaces the
    listed fields and keeps the others. *)

Definition initialRaceExecution : RaceExecutionState :=
  {| currentRace := None; horsePositions := []; isAnimating := false;
     animationStartTime := None |}.

Definition initialState : GameStoreState :=
  {| gameState := GameState.IDLE; horses := []; schedule := None;
     raceExecution := initialRaceExecution; results := [];
     currentRoundIndex := 0%nat |}.

Definition set_gameState (g : GameState.t) (st : GameStoreState) : GameStoreState :=
  {| gameState := g; horses := horses st; schedule := schedule st;
     raceExecution := raceExecution st; results := results st;
     currentRoundIndex := currentRoundIndex st |}.

Definition initializeHorsePositions (horseIds : list string) (hs : list Horse)
    : list HorsePosition :=
  imap (fun index hid =>
    let horse := js_find (fun h => String.eqb (id h) hid) hs in
    let cond := match horse with Some h => condition h | None => 50 end in
    {| horseId := hid; position := 0; lane := (Z.of_nat index + 1)%Z;
       speed := calculateHorseSpeed cond; finishTime := None |})
    horseIds.

Definition withStatus (race : Race.t) (st : RaceStatus.t) : Race.t :=
  {| Race.roundNumber := Race.roundNumber race; Race.distance := Race.distance race;
     Race.horseIds := Race.horseIds race; Race.status := st;
     Race.startTime := Race.startTime race; Race.endTime := Race.endTime race |}.

Definition generateSchedule (rnd : nat -> Q) (s : nat) (st : GameStoreState)
    : GameStoreState * nat :=
  match gameState st with
  | GameState.HORSES_READY | GameState.COMPLETED =>
      let '(sch, s1) := createRaceSchedule rnd (horses st) s in
      ({| gameState := GameState.SCHEDULE_READY; horses := horses st;
          schedule := Some sch; raceExecution := initialRaceExecution;
          results := []; currentRoundIndex := 0%nat |}, s1)
  | _ => (st, s)
  end.

Definition startNextRace (now : Q) (st : GameStoreState) : GameStoreState :=
  match schedule st with
  | None => st
  | Some sch =>
      if negb (GameState.eqb (gameState st) GameState.RACING) then st
      else if (length sch <=? currentRoundIndex st)%nat
      then set_gameState GameState.COMPLETED st
      else match sch !! currentRoundIndex st with
           | None => st
           | Some cr =>
               let positions := initializeHorsePositions (Race.horseIds cr) (horses st) in
               let updatedSchedule :=
                 imap (fun index race =>
                   if (index =? currentRoundIndex st)%nat
                   then {| Race.roundNumber := Race.roundNumber race;
                           Race.distance := Race.distance race;
                           Race.horseIds := Race.horseIds race;
                           Race.status := RaceStatus.RUNNING;
                           Race.startTime := Some now;
                           Race.endTime := Race.endTime race |}
                   else race) sch in
               {| gameState := gameState st; horses := horses st;
                  schedule := Some updatedSchedule;
                  raceExecution :=
                    {| currentRace := Some (withStatus cr RaceStatus.RUNNING);
                       horsePositions := positions; isAnimating := true;
                       animationStartTime := Some now |};
                  results := results st; currentRoundIndex := currentRoundIndex st |}
           end
  end.

Definition startRacing (now : Q) (st : GameStoreState) : GameStoreState :=
  if GameState.eqb (gameState st) GameState.SCHEDULE_READY
  then startNextRace now (set_gameState GameState.RACING st)
  else st.

Definition pauseRacing (st : GameStoreState) : GameStoreState :=
  if GameState.eqb (gameState st) GameState.RACING
  then {| gameState := GameState.PAUSED; horses := horses st;
          schedule := schedule st;
          raceExecution :=
            {| currentRace := currentRace (raceExecution st);
               horsePositions := horsePositions (raceExecution st);
               isAnimating := false;
               animationStartTime := animationStartTime (raceExecution st) |};
          results := results st; currentRoundIndex := currentRoundIndex st |}
  else st.

(** [completeCurrentRace(raceResults)]: [None] when [schedule[currentRoundIndex]]
    is [undefined] (reading [currentRace.roundNumber] throws); the boolean
    tells whether [startNextRace] is scheduled after [INTER_RACE_DELAY]. *)
Definition completeCurrentRace (raceResults : list RaceResultEntry.t) (now : Q)
    (st : GameStoreState) : option (GameStoreState * bool) :=
  match schedule st, currentRace (raceExecution st) with
  | Some sch, Some _ =>
      match sch !! currentRoundIndex st with
      | None => None
      | Some cr =>
          let raceResult :=
            {| RaceResult.roundNumber := Race.roundNumber cr;
               RaceResult.distance := Race.distance cr;
               RaceResult.results :=
                 fst (js_sort (pure_cmp (fun a b =>
                        inject_Z (RaceResultEntry.position a - RaceResultEntry.position b)))
                        raceResults tt);
               RaceResult.completedAt := now |} in
          let updatedSchedule :=
            imap (fun index race =>
              if (index =? currentRoundIndex st)%nat
              then {| Race.roundNumber := Race.roundNumber race;
                      Race.distance := Race.distance race;
                      Race.horseIds := Race.horseIds race;
                      Race.status := RaceStatus.COMPLETED;
                      Race.startTime := Race.startTime race;
                      Race.endTime := Some now |}
              else race) sch in
          let nextRoundIndex := S (currentRoundIndex st) in
          let allRacesCompleted := (length sch <=? nextRoundIndex)%nat in
          Some ({| gameState := if allRacesCompleted then GameState.COMPLETED
                                else GameState.RACING;
                   horses := horses st; schedule := Some updatedSchedule;
                   raceExecution := initialRaceExecution;
                   results := results st ++ [raceResult];
                   currentRoundIndex := nextRoundIndex |},
                negb allRacesCompleted)
      end
  | _, _ => Some (st, false)
  end.

Definition resetGame (st : GameStoreState) : GameStoreState := initialState.

(** The race track completing the current race, followed by the scheduled
    [startNextRace] when there is one. *)
Definition completeAndContinue (raceResults : list RaceResultEntry.t)
    (now next : Q) (st : GameStoreState) : option GameStoreState :=
  match completeCurrentRace raceResults now st with
  | None => None
  | Some (st', true) => Some (startNextRace next st')
  | Some (st', false) => Some st'
  end.

(** Completing one race per entry of [rounds] (results, completion time,
    start time of the next race), in order. *)
Fixpoint playRounds (rounds : list (list RaceResultEntry.t * Q * Q))
    (st : GameStoreState) : option GameStoreState :=
  match rounds with
  | [] => Some st
  | (rr, now, next) :: rest =>
      match completeAndContinue rr now next st with
      | None => None
      | Some st' => playRounds rest st'
      end
  end.

(** ** Persistence ([persist] options) *)

Record PersistedState := mkPersisted {
  p_gameState : GameState.t;
  p_horses : list Horse;
  p_schedule : option (list Race.t);
  p_results : list RaceResult.t;
  p_currentRoundIndex : nat
}.

Definition partialize (st : GameStoreState) : PersistedState :=
  {| p_gameState := gameState st; p_horses := horses st;
     p_schedule := schedule st; p_results := results st;
     p_currentRoundIndex := currentRoundIndex st |}.

(** [onRehydrateStorage] callback: [if (!state) return;] then the
    normalisation of an interrupted race. *)
Definition onRehydrateStorage (state : option GameStoreState) : option GameStoreState :=
  match state with
  | None => None
  | Some st =>
      if GameState.eqb (gameState st) GameState.RACING ||
         GameState.eqb (gameState st) GameState.PAUSED
      then Some (set_gameState GameState.SCHEDULE_READY st)
      else Some st
  end.

(** The persist middleware's default merge of a stored record into the
    current state ([{ ...currentState, ...persistedState }]). *)
Definition mergePersisted (p : PersistedState) (current : GameStoreState)
    : GameStoreState :=
  {| gameState := p_gameState p; horses := p_horses p; schedule := p_schedule p;
     raceExecution := raceExecution current; results := p_results p;
     currentRoundIndex := p_currentRoundIndex p |}.

Definition rehydrate (p : PersistedState) (current : GameStoreState)
    : option GameStoreState :=
  onRehydrateStorage (Some (mergePersisted p current)).

(** ** Further helpers of the cited files *)

(** [generateSpeedVariation()]: [0.8 + Math.random() * 0.4]. *)
Definition generateSpeedVariation (rnd : nat -> Q) (s : nat) : Q * nat :=
  (0.8 + rnd s * 0.4, S s).

(** [DEFAULT_HORSE_SPEED] of [raceHelpers.ts]. *)
Definition DEFAULT_HORSE_SPEED : Q := 0.75.

(** [getHorseById(horses, id)]: [horses.find((horse) => horse.id === id)]. *)
Definition getHorseById (horses : list Horse) (hid : string) : option Horse :=
  js_find (fun horse => String.eqb (id horse) hid) horses.

(** [.filter((horse): horse is Horse => horse !== undefined)]. *)
Fixpoint js_filter_defined {A : Type} (l : list (option A)) : list A :=
  match l with
  | [] => []
  | Some x :: rest => x :: js_filter_defined rest
  | None :: rest => js_filter_defined rest
  end.

(** [getHorsesByIds(horses, ids)]. *)
Definition getHorsesByIds (horses : list Horse) (ids : list string) : list Horse :=
  js_filter_defined (map (fun hid => getHorseById horses hid) ids).

(** Store action [initializeHorses]: [set({ horses, gameState: HORSES_READY })]. *)
Definition initializeHorses (rnd : nat -> Q) (s : nat) (st : GameStoreState)
    : GameStoreState * nat :=
  let '(hs, s1) := generateHorses rnd s in
  ({| gameState := GameState.HORSES_READY; horses := hs;
      schedule := schedule st; raceExecution := raceExecution st;
      results := results st; currentRoundIndex := currentRoundIndex st |}, s1).

(** Store action [resumeRacing]. *)
Definition resumeRacing (st : GameStoreState) : GameStoreState :=
  if GameState.eqb (gameState st) GameState.PAUSED
  then {| gameState := GameState.RACING; horses := horses st;
          schedule := schedule st;
          raceExecution :=
            {| currentRace := currentRace (raceExecution st);
               horsePositions := horsePositions (raceExecution st);
               isAnimating := true;
               animationStartTime := animationStartTime (raceExecution st) |};
          results := results st; currentRoundIndex := currentRoundIndex st |}
  else st.

(** Selectors of [store/selectors.ts]. *)
Definition selectCurrentRace (st : GameStoreState) : option Race.t :=
  match schedule st with
  | Some sch => sch !! currentRoundIndex st
  | None => None
  end.

Definition selectIsRacing (st : GameStoreState) : bool :=
  GameState.eqb (gameState st) GameState.RACING.

Definition selectIsPaused (st : GameStoreState) : bool :=
  GameState.eqb (gameState st) GameState.PAUSED.

Definition selectCanGenerateSchedule (st : GameStoreState) : bool :=
  GameState.eqb (gameState st) GameState.HORSES_READY ||
  GameState.eqb (gameState st) GameState.COMPLETED.

Definition selectCanStartRace (st : GameStoreState) : bool :=
  GameState.eqb (gameState st) GameState.SCHEDULE_READY.

(** ** Basic facts about the JavaScript primitives *)

Lemma js_lt_true (a b : Q) : js_lt a b = true <-> a < b.
Proof.
  unfold js_lt. rewrite negb_true_iff. split.
  - intros H. apply Qnot_le_lt. intros H'. apply Qle_bool_iff in H'. congruence.
  - intros H. destruct (Qle_bool b a) eqn:E; [|reflexivity].
    apply Qle_bool_iff in E. exfalso. apply (Qlt_not_le _ _ H E).
Qed.

Lemma js_lt_false (a b : Q) : js_lt a b = false <-> b <= a.
Proof.
  unfold js_lt. rewrite negb_false_iff. apply Qle_bool_iff.
Qed.

Lemma js_ge_true (a b : Q) : js_ge a b = true <-> b <= a.
Proof. apply Qle_bool_iff. Qed.

Lemma js_ge_false (a b : Q) : js_ge a b = false <-> a < b.
Proof.
  unfold js_ge. split.
  - intros H. apply Qnot_le_lt. intros H'. apply Qle_bool_iff in H'. congruence.
  - intros H. destruct (Qle_bool b a) eqn:E; [|reflexivity].
    apply Qle_bool_iff in E. exfalso. apply (Qlt_not_le _ _ H E).
Qed.

Lemma js_min_cases (a b : Q) :
  (a <= b /\ js_min a b = a) \/ (b < a /\ js_min a b = b).
Proof.
  unfold js_min. destruct (Qle_bool a b) eqn:E.
  - left. split; [apply Qle_bool_iff; exact E | reflexivity].
  - right. split; [|reflexivity]. apply Qnot_le_lt. intros H.
    apply Qle_bool_iff in H. congruence.
Qed.

Lemma js_min_le_r (a b : Q) : js_min a b <= b.
Proof.
  destruct (js_min_cases a b) as [[H ->]|[H ->]]; [exact H | apply Qle_refl].
Qed.

Lemma js_min_ge (a b c : Q) : c <= a -> c <= b -> c <= js_min a b.
Proof. destruct (js_min_cases a b) as [[_ ->]|[_ ->]]; auto. Qed.

(** The per-frame movement of the formula. *)
Definition moveAmount (hp : HorsePosition)
    (deltaTime distanceMultiplier speedVariation : Q) : Q :=
  speed hp * speedVariation * (deltaTime / (SPEED_DIVISOR * distanceMultiplier)).

Lemma calculateNewPosition_unfinished (hp : HorsePosition) (dt m v t : Q) :
  finishTime hp = None ->
  calculateNewPosition hp dt m v t =
  {| horseId := horseId hp;
     position := js_min (position hp + moveAmount hp dt m v) 100;
     lane := lane hp;
     speed := speed hp;
     finishTime :=
       if js_lt (position hp) 100 &&
          js_ge (js_min (position hp + moveAmount hp dt m v) 100) 100
       then Some t else None |}.
Proof. intros H. unfold calculateNewPosition. rewrite H. reflexivity. Qed.

Lemma calculateNewPosition_finished (hp : HorsePosition) (dt m v t : Q) :
  finishTime hp <> None -> calculateNewPosition hp dt m v t = hp.
Proof.
  intros H. unfold calculateNewPosition. destruct (finishTime hp); congruence.
Qed.

Lemma moveAmount_nonneg (hp : HorsePosition) (dt m v : Q) :
  0 <= speed hp -> 0 <= v -> 0 <= dt -> 0 < m -> 0 <= moveAmount hp dt m v.
Proof.
  intros Hs Hv Hd Hm. unfold moveAmount, Qdiv, SPEED_DIVISOR.
  apply Qmult_le_0_compat; [apply Qmult_le_0_compat; assumption|].
  apply Qmult_le_0_compat; [assumption|].
  apply Qlt_le_weak, Qinv_lt_0_compat. nra.
Qed.

(** ** Single update of [calculateNewPosition] *)

(** Claim C1 (as stated): a negative [speed] is not excluded by the
    claim, and then one update moves the participant backwards. *)
Lemma calculateNewPosition_negative_speed_moves_back :
  let hp := mkHorsePosition "horse_1" 50 1 (-1) None in
  0 <= position hp <= 100 /\ 0 <= 16 /\ 0 < 1 /\ 0.8 <= 1 <= 1.2 /\
  ~ (position hp <= position (calculateNewPosition hp 16 1 1 0)).
Proof.
  cbv zeta.
  split; [split; apply Qle_bool_iff; reflexivity|].
  split; [apply Qle_bool_iff; reflexivity|].
  split; [reflexivity|].
  split; [split; apply Qle_bool_iff; reflexivity|].
  intros H. apply Qle_bool_iff in H. vm_compute in H. discriminate.
Qed.

(** Claim C1 (amended with [0 <= speed]): for a participant with position
    in [0,100] and non-negative speed, [deltaTime >= 0],
    [distanceMultiplier > 0] and [speedVariation] in [0.8,1.2], one update
    never decreases the position, never exceeds 100, leaves a finished
    participant unchanged, sets [finishTime] to [currentTime] exactly when
    the position crosses from below 100 to at least 100, and keeps
    [horseId], [lane] and [speed]. *)
Theorem calculateNewPosition_spec (hp : HorsePosition) (dt m v t : Q) :
  0 <= position hp <= 100 -> 0 <= speed hp -> 0 <= dt -> 0 < m ->
  0.8 <= v <= 1.2 ->
  let r := calculateNewPosition hp dt m v t in
  position hp <= position r /\ position r <= 100 /\
  (finishTime hp <> None -> r = hp) /\
  (finishTime hp = None ->
     (position hp < 100 /\ 100 <= position r /\ finishTime r = Some t) \/
     (~ (position hp < 100 /\ 100 <= position r) /\ finishTime r = None)) /\
  horseId r = horseId hp /\ lane r = lane hp /\ speed r = speed hp.
Proof.
  intros [Hp0 Hp1] Hs Hd Hm [Hv0 Hv1] r. subst r.
  destruct (finishTime hp) as [ft|] eqn:Hf.
  - rewrite calculateNewPosition_finished by congruence.
    split; [apply Qle_refl|]. split; [exact Hp1|].
    split; [intros _; reflexivity|]. split; [discriminate|].
    repeat split.
  - rewrite calculateNewPosition_unfinished by exact Hf. cbn.
    assert (Hmv : 0 <= moveAmount hp dt m v)
      by (apply moveAmount_nonneg; try assumption; lra).
    set (np := js_min (position hp + moveAmount hp dt m v) 100).
    assert (Hnp0 : position hp <= np)
      by (apply js_min_ge; lra).
    assert (Hnp1 : np <= 100) by apply js_min_le_r.
    split; [exact Hnp0|]. split; [exact Hnp1|].
    split; [intros H; congruence|].
    split; [|repeat split]. intros _.
    destruct (js_lt (position hp) 100) eqn:E1;
    destruct (js_ge np 100) eqn:E2; cbn.
    + left. apply js_lt_true in E1. apply js_ge_true in E2. auto.
    + right. split; [|reflexivity]. apply js_ge_false in E2.
      intros [_ H]. lra.
    + right. split; [|reflexivity]. apply js_lt_false in E1.
      intros [H _]. lra.
    + right. split; [|reflexivity]. apply js_lt_false in E1.
      intros [H _]. lra.
Qed.

(** ** Speed derivation *)

(** Claim C8: [speed(c) = 0.5 + (c/100) * 0.5] is the affine function
    [1/2 + c/200], strictly increasing, with speed(0) = 0.5,
    speed(50) = 0.75, speed(100) = 1; conditions in [0,100] give speeds in
    [0.5,1], and speed(100) is twice speed(0). *)
Theorem calculateHorseSpeed_spec :
  (forall c : Q, calculateHorseSpeed c == (1#2) + (1#200) * c) /\
  (forall c1 c2 : Q, c1 < c2 ->
     calculateHorseSpeed c1 < calculateHorseSpeed c2) /\
  calculateHorseSpeed 0 == 0.5 /\
  calculateHorseSpeed 50 == 0.75 /\
  calculateHorseSpeed 100 == 1 /\
  (forall c : Q, 0 <= c <= 100 ->
     0.5 <= calculateHorseSpeed c <= 1) /\
  calculateHorseSpeed 100 == 2 * calculateHorseSpeed 0.
Proof.
  assert (Hlin : forall c : Q, calculateHorseSpeed c == (1#2) + (1#200) * c).
  { intros c. unfold calculateHorseSpeed. field. }
  split; [exact Hlin|].
  split; [intros c1 c2 H; rewrite !Hlin; lra|].
  split; [reflexivity|]. split; [reflexivity|]. split; [reflexivity|].
  split; [intros c Hc; rewrite Hlin; lra|].
  reflexivity.
Qed.

(** ** A participant at the line without a finish time *)

(** Claim C10 (as stated): without a sign condition on the inputs, a
    participant at 100 without [finishTime] is moved back by a negative
    speed instead of being held at 100. *)
Lemma stuck_participant_negative_speed :
  let hp := mkHorsePosition "horse_1" 100 1 (-1) None in
  finishTime hp = None /\ 100 <= position hp /\
  ~ (position (calculateNewPosition hp 16 1 1 0) == 100).
Proof.
  cbv zeta. split; [reflexivity|]. split; [apply Qle_bool_iff; reflexivity|].
  intros H. apply Qeq_bool_iff in H. vm_compute in H. discriminate.
Qed.

Definition stuck (hp : HorsePosition) : Prop :=
  finishTime hp = None /\ 100 <= position hp /\ 0 <= speed hp.

Lemma calculateNewPosition_stuck (hp : HorsePosition) (dt m v t : Q) :
  stuck hp -> 0 <= dt -> 0 < m -> 0 <= v ->
  position (calculateNewPosition hp dt m v t) == 100 /\
  stuck (calculateNewPosition hp dt m v t).
Proof.
  intros (Hf & Hp & Hs) Hd Hm Hv.
  rewrite calculateNewPosition_unfinished by exact Hf.
  assert (Hmv : 0 <= moveAmount hp dt m v) by (apply moveAmount_nonneg; assumption).
  assert (Hlt : js_lt (position hp) 100 = false) by (apply js_lt_false; exact Hp).
  rewrite Hlt. cbn.
  assert (Hmin : js_min (position hp + moveAmount hp dt m v) 100 == 100).
  { destruct (js_min_cases (position hp + moveAmount hp dt m v) 100)
      as [[H ->]|[H ->]]; [lra|reflexivity]. }
  split; [exact Hmin|]. unfold stuck; cbn.
  split; [reflexivity|]. split; [rewrite Hmin; apply Qle_refl|exact Hs].
Qed.

Lemma raceFrame_stuck (ps : list HorsePosition) (f : Frame) :
  frame_ok f -> (exists hp, hp ∈ ps /\ stuck hp) ->
  exists hp, hp ∈ raceFrame ps (frameDelta f) (frameMultiplier f)
                (frameNow f) (frameVariation f) /\ stuck hp.
Proof.
  intros (Hd & Hm & Hv) (hp & Hin & Hst).
  apply list_elem_of_lookup in Hin as [i Hi].
  eexists. split.
  - apply list_elem_of_lookup. exists i. unfold raceFrame.
    rewrite list_lookup_imap, Hi. reflexivity.
  - apply (calculateNewPosition_stuck hp); auto.
Qed.

Lemma runFrames_stuck (frames : list Frame) (ps : list HorsePosition) :
  Forall frame_ok frames -> (exists hp, hp ∈ ps /\ stuck hp) ->
  exists hp, hp ∈ runFrames frames ps /\ stuck hp.
Proof.
  revert ps. induction frames as [|f rest IH]; intros ps Hok Hex; cbn.
  - exact Hex.
  - inversion Hok; subst. apply IH; [assumption|].
    apply raceFrame_stuck; assumption.
Qed.

Lemma checkAllFinished_unfinished (ps : list HorsePosition) (hp : HorsePosition) :
  hp ∈ ps -> finishTime hp = None -> checkAllFinished ps = false.
Proof.
  intros Hin Hf. unfold checkAllFinished.
  destruct (forallb _ ps) eqn:E; [|reflexivity].
  rewrite forallb_forall in E. apply list_elem_of_In in Hin.
  specialize (E hp Hin). rewrite Hf in E. discriminate.
Qed.

(** Claim C10 (amended with non-negative speed, [deltaTime],
    speed variations and a positive [distanceMultiplier]): a participant
    without [finishTime] whose position is already at least 100 is
    returned at position exactly 100, still without [finishTime]; and a
    participant list containing it never satisfies [checkAllFinished],
    whatever admissible frames are applied. *)
Theorem stuck_participant_never_finishes (hp : HorsePosition) :
  finishTime hp = None -> 100 <= position hp -> 0 <= speed hp ->
  (forall dt m v t : Q, 0 <= dt -> 0 < m -> 0 <= v ->
     position (calculateNewPosition hp dt m v t) == 100 /\
     finishTime (calculateNewPosition hp dt m v t) = None) /\
  (forall (ps : list HorsePosition) (frames : list Frame),
     hp ∈ ps -> Forall frame_ok frames ->
     checkAllFinished (runFrames frames ps) = false).
Proof.
  intros Hf Hp Hs. split.
  - intros dt m v t Hd Hm Hv.
    assert (Hst : stuck hp) by (split; [exact Hf|split; assumption]).
    destruct (calculateNewPosition_stuck hp dt m v t Hst Hd Hm Hv)
      as [H1 [H2 _]].
    split; assumption.
  - intros ps frames Hin Hok.
    destruct (runFrames_stuck frames ps Hok) as (q & Hq & Hqf & _).
    + exists hp. repeat split; auto.
    + exact (checkAllFinished_unfinished _ q Hq Hqf).
Qed.

Lemma stuck_participant_never_finishes_witness :
  let hp := mkHorsePosition "horse_1" 150 1 1 None in
  finishTime hp = None /\ 100 <= position hp /\ 0 <= speed hp /\
  checkAllFinished
    (runFrames [mkFrame 16 1 1 (fun _ => 1)] [hp]) = false.
Proof.
  cbv zeta.
  assert (H1 : 100 <= 150) by (apply Qle_bool_iff; reflexivity).
  assert (H2 : 0 <= 1) by (apply Qle_bool_iff; reflexivity).
  split; [reflexivity|]. split; [exact H1|]. split; [exact H2|].
  refine (proj2 (stuck_participant_never_finishes
            (mkHorsePosition "horse_1" 150 1 1 None) eq_refl H1 H2)
            _ _ _ _).
  - left.
  - constructor; [|constructor].
    split; [apply Qle_bool_iff; reflexivity|].
    split; [reflexivity|]. intros i. exact H2.
Defined.

(** ** Sorting: permutation for any comparator *)

Lemma sort_insert_perm {A S : Type} (comparefn : A -> A -> S -> Q * S)
    (x : A) (l : list A) (s : S) :
  fst (sort_insert comparefn x l s) ≡ₚ x :: l.
Proof.
  revert s. induction l as [|y l IH]; intros s; cbn; [reflexivity|].
  destruct (comparefn x y s) as [c s1]. destruct (js_lt c 0); cbn; [reflexivity|].
  specialize (IH s1). destruct (sort_insert comparefn x l s1) as [r s2]; cbn in *.
  rewrite IH. apply perm_swap.
Qed.

Lemma sort_from_perm {A S : Type} (comparefn : A -> A -> S -> Q * S)
    (sorted todo : list A) (s : S) :
  fst (sort_from comparefn sorted todo s) ≡ₚ sorted ++ todo.
Proof.
  revert sorted s. induction todo as [|x todo IH]; intros sorted s; cbn.
  - by rewrite app_nil_r.
  - pose proof (sort_insert_perm comparefn x sorted s) as Hp.
    destruct (sort_insert comparefn x sorted s) as [sorted' s1]; cbn in Hp.
    rewrite IH, Hp. cbn. by rewrite Permutation_middle.
Qed.

Lemma js_sort_perm {A S : Type} (comparefn : A -> A -> S -> Q * S)
    (array : list A) (s : S) :
  fst (js_sort comparefn array s) ≡ₚ array.
Proof. unfold js_sort. by rewrite sort_from_perm. Qed.

(** ** Sorting by finish time: order and stability *)

(** The sort key of the spec: a missing [finishTime] counts as 0. *)
Definition finishKey (hp : HorsePosition) : Q :=
  match finishTime hp with Some x => x | None => 0 end.

Definition finishCmp : HorsePosition -> HorsePosition -> unit -> Q * unit :=
  pure_cmp (fun a b => js_or (finishTime a) 0 - js_or (finishTime b) 0).

Lemma js_or_zero (x : option Q) :
  js_or x 0 == match x with Some v => v | None => 0 end.
Proof.
  destruct x as [v|]; cbn; [|reflexivity].
  destruct (Qeq_bool v 0) eqn:E; [|reflexivity].
  apply Qeq_bool_iff in E. rewrite E. reflexivity.
Qed.

Lemma finishCmp_lt (a b : HorsePosition) :
  js_lt (js_or (finishTime a) 0 - js_or (finishTime b) 0) 0 = true <->
  finishKey a < finishKey b.
Proof.
  rewrite js_lt_true. unfold finishKey.
  rewrite !js_or_zero. split; intros; lra.
Qed.

Definition keyLe (a b : HorsePosition) : Prop := finishKey a <= finishKey b.

Definition keyIs (k : Q) (hp : HorsePosition) : bool := Qeq_bool (finishKey hp) k.

Lemma sort_insert_finish (x : HorsePosition) (l : list HorsePosition) :
  StronglySorted keyLe l ->
  snd (sort_insert finishCmp x l tt) = tt /\
  StronglySorted keyLe (fst (sort_insert finishCmp x l tt)) /\
  (forall k, List.filter (keyIs k) (fst (sort_insert finishCmp x l tt)) =
             List.filter (keyIs k) l ++ List.filter (keyIs k) [x]).
Proof.
  induction l as [|y l IH]; intros Hs; cbn.
  - split; [reflexivity|]. split; [repeat constructor|].
    intros k. reflexivity.
  - apply StronglySorted_inv in Hs as [Hs Hy].
    destruct (js_lt _ 0) eqn:E.
    + apply finishCmp_lt in E. cbn.
      split; [reflexivity|]. split.
      * constructor; [constructor; assumption|].
        constructor; [unfold keyLe; lra|].
        eapply Forall_impl; [exact Hy|]. intros z Hz. unfold keyLe in *. lra.
      * intros k. cbn. destruct (keyIs k x) eqn:Ex.
        -- assert (Hnone : List.filter (keyIs k) (y :: l) = []).
           { apply Qeq_bool_iff in Ex.
             assert (Hall : Forall (fun z => keyIs k z = false) (y :: l)).
             { constructor.
               - unfold keyIs. apply not_true_iff_false. intros Hq.
                 apply Qeq_bool_iff in Hq. lra.
               - eapply Forall_impl; [exact Hy|]. intros z Hz.
                 unfold keyIs. apply not_true_iff_false. intros Hq.
                 apply Qeq_bool_iff in Hq. unfold keyLe in Hz. lra. }
             clear -Hall. induction Hall as [|z l' Hz _ IHl]; cbn;
               [reflexivity|]. rewrite Hz. exact IHl. }
           cbn in Hnone. rewrite Hnone. reflexivity.
        -- rewrite app_nil_r. reflexivity.
    + assert (Hyx : keyLe y x).
      { unfold keyLe. apply Qnot_lt_le. intros H.
        apply finishCmp_lt in H. congruence. }
      pose proof (sort_insert_perm finishCmp x l tt) as Hp.
      destruct (IH Hs) as (Hst & Hsorted & Hfilt).
      destruct (sort_insert finishCmp x l tt) as [r s2]; cbn in *.
      split; [exact Hst|]. split.
      * constructor; [exact Hsorted|].
        rewrite Forall_forall in *. intros z Hz.
        rewrite Hp in Hz. apply elem_of_cons in Hz as [->|Hz]; auto.
      * intros k. rewrite (Hfilt k). destruct (keyIs k y); reflexivity.
Qed.

Lemma sort_from_finish (sorted todo : list HorsePosition) :
  StronglySorted keyLe sorted ->
  StronglySorted keyLe (fst (sort_from finishCmp sorted todo tt)) /\
  (forall k, List.filter (keyIs k) (fst (sort_from finishCmp sorted todo tt)) =
             List.filter (keyIs k) sorted ++ List.filter (keyIs k) todo).
Proof.
  revert sorted. induction todo as [|x todo IH]; intros sorted Hs; cbn.
  - split; [exact Hs|]. intros k. by rewrite app_nil_r.
  - destruct (sort_insert_finish x sorted Hs) as (Hst & Hsorted & Hfilt).
    destruct (sort_insert finishCmp x sorted tt) as [sorted' []]; cbn in *.
    destruct (IH sorted' Hsorted) as [H1 H2].
    split; [exact H1|]. intros k. rewrite H2, Hfilt, <- app_assoc.
    destruct (keyIs k x); reflexivity.
Qed.

Lemma sortByFinishTime_spec (positions : list HorsePosition) :
  sortByFinishTime positions ≡ₚ positions /\
  StronglySorted keyLe (sortByFinishTime positions) /\
  (forall k, List.filter (keyIs k) (sortByFinishTime positions) =
             List.filter (keyIs k) positions).
Proof.
  split; [apply js_sort_perm|].
  destruct (sort_from_finish [] positions (SSorted_nil _)) as [H1 H2].
  split; [exact H1|]. intros k. exact (H2 k).
Qed.

Lemma compileRaceResults_lookup (positions : list HorsePosition)
    (horses : list Horse) (ast : option Q) (ct : Q) (i : nat) :
  compileRaceResults positions horses ast ct !! i =
  (fun hp =>
    {| RaceResultEntry.horseId := horseId hp;
       RaceResultEntry.position := Z.of_nat i + 1;
       RaceResultEntry.time :=
         js_or (finishTime hp) ct - js_or ast 0;
       RaceResultEntry.horse :=
         js_find (fun h => String.eqb (id h) (horseId hp)) horses |})
  <$> sortByFinishTime positions !! i.
Proof. unfold compileRaceResults. apply list_lookup_imap. Qed.

(** Claim C3 (divergence): [hp.finishTime || currentTime] also falls back
    to [currentTime] for a present [finishTime] of 0, so the entry's time
    is [currentTime - animationStartTime] instead of [0 - animationStartTime]. *)
Lemma compileRaceResults_zero_finishTime :
  map RaceResultEntry.time
    (compileRaceResults [mkHorsePosition "horse_1" 100 1 1 (Some 0)]
       [] None 5) = [5] /\
  ~ (5 == 0 - 0).
Proof.
  split; [reflexivity|]. intros H. apply Qeq_bool_iff in H. discriminate.
Qed.

(** Claim C3 (everywhere but a [finishTime] of 0): [compileRaceResults]
    ranks a permutation of the participants sorted ascending by
    [finishTime] (missing as 0), stable for equal finish times; positions
    are 1..N in sorted order; each entry whose [finishTime] is not 0 has
    time [finishTime - animationStartTime], with [currentTime] for a
    missing [finishTime] and 0 for a missing [animationStartTime]. *)
Theorem compileRaceResults_spec (positions : list HorsePosition)
    (horses : list Horse) (animationStartTime : option Q) (currentTime : Q) :
  let sorted := sortByFinishTime positions in
  let res := compileRaceResults positions horses animationStartTime currentTime in
  sorted ≡ₚ positions /\
  StronglySorted (fun a b => finishKey a <= finishKey b) sorted /\
  (forall k : Q,
     List.filter (fun hp => Qeq_bool (finishKey hp) k) sorted =
     List.filter (fun hp => Qeq_bool (finishKey hp) k) positions) /\
  map RaceResultEntry.position res =
    map (fun i => Z.of_nat i + 1)%Z (seq 0 (length positions)) /\
  (forall (i : nat) (hp : HorsePosition), sorted !! i = Some hp ->
     exists e, res !! i = Some e /\
       RaceResultEntry.horseId e = horseId hp /\
       ((forall x, finishTime hp = Some x -> ~ x == 0) ->
        RaceResultEntry.time e ==
         (match finishTime hp with
          | Some x => x
          | None => currentTime
          end) -
         (match animationStartTime with Some a => a | None => 0 end))).
Proof.
  cbv zeta. destruct (sortByFinishTime_spec positions) as (Hp & Hs & Hf).
  split; [exact Hp|]. split; [exact Hs|]. split; [exact Hf|]. split.
  - apply list_eq. intros i.
    rewrite list_lookup_fmap, compileRaceResults_lookup, list_lookup_fmap.
    rewrite <- (Permutation_length Hp).
    destruct (decide (i < length (sortByFinishTime positions))%nat) as [Hi|Hi].
    + rewrite lookup_seq_lt by exact Hi.
      destruct (lookup_lt_is_Some_2 _ _ Hi) as [hp Hhp]. rewrite Hhp.
      reflexivity.
    + rewrite lookup_seq_ge by lia.
      rewrite lookup_ge_None_2 by lia. reflexivity.
  - intros i hp Hi. rewrite compileRaceResults_lookup, Hi. cbn.
    eexists. split; [reflexivity|]. split; [reflexivity|]. intros Hnz.
    cbn. unfold js_or.
    destruct (finishTime hp) as [x|];
      [destruct (Qeq_bool x 0) eqn:E;
         [apply Qeq_bool_iff in E; exfalso; exact (Hnz x eq_refl E)|]|];
      destruct animationStartTime as [a|]; try reflexivity;
      destruct (Qeq_bool a 0) eqn:E2; try reflexivity;
      apply Qeq_bool_iff in E2; rewrite E2; reflexivity.
Qed.

(** ** A two-participant race *)

Lemma runFrames_two (frames : list Frame) (h1 h2 : HorsePosition) :
  runFrames frames [h1; h2] = [runLane frames 0 h1; runLane frames 1 h2].
Proof.
  revert h1 h2. induction frames as [|f rest IH]; intros h1 h2; cbn;
    [reflexivity|].
  apply IH.
Qed.

Lemma runLane_horseId (frames : list Frame) (i : nat) (hp : HorsePosition) :
  horseId (runLane frames i hp) = horseId hp.
Proof.
  revert hp. induction frames as [|f rest IH]; intros hp; cbn; [reflexivity|].
  rewrite IH. unfold calculateNewPosition.
  destruct (finishTime hp); reflexivity.
Qed.

Lemma runLane_finished (frames : list Frame) (i : nat) (hp : HorsePosition) :
  finishTime hp <> None -> runLane frames i hp = hp.
Proof.
  revert hp. induction frames as [|f rest IH]; intros hp H; cbn; [reflexivity|].
  rewrite calculateNewPosition_finished by exact H. apply IH, H.
Qed.

(** Inputs of one frame of the two-participant race. *)
Definition raceInput (m : Q) (i j : nat) (f : Frame) : Prop :=
  frameDelta f = 16 /\ frameMultiplier f = m /\
  0.8 <= frameVariation f i <= 1.2 /\ 0.8 <= frameVariation f j <= 1.2.

Definition nowLt (f g : Frame) : Prop := frameNow f < frameNow g.

(** The move of a speed-1 participant at variation 1 in a frame with
    [deltaTime = 16]. *)
Definition unitStep (m : Q) : Q := 16 / (SPEED_DIVISOR * m).

(** Multipliers for which no frame count [n] lets the slow participant
    (at most [3/5] of a unit step per frame) reach the line in frame
    [n+1] while the fast one (at least [4/5] per frame) is still short of
    it after frame [n]. *)
Definition tieFree (m : Q) : Prop :=
  18 # 3125 < m \/ (12 # 3125 < m /\ m <= 16 # 3125) \/
  (6 # 3125 < m /\ m <= 8 # 3125).

(** Invariant of the race of the speed-1 participant [hf] against the
    speed-0.5 participant [hs], after [n] frames of unit step [k], given
    the frames still to come. *)
Definition raceInv (k : Q) (frames : list Frame) (hf hs : HorsePosition) : Prop :=
  speed hf = 1 /\ speed hs = 0.5 /\
  ((finishTime hf = None /\ finishTime hs = None /\
    exists n : nat,
      0 <= position hs /\
      position hs <= (3#5) * k * inject_Z (Z.of_nat n) /\
      (4#5) * k * inject_Z (Z.of_nat n) <= position hf /\
      position hf < 100) \/
   (exists tf, finishTime hf = Some tf /\
      (finishTime hs = None -> Forall (fun f => tf < frameNow f) frames) /\
      (forall ts, finishTime hs = Some ts -> tf < ts))).

Lemma speed_calculateNewPosition (hp : HorsePosition) (dt m v t : Q) :
  speed (calculateNewPosition hp dt m v t) = speed hp.
Proof. unfold calculateNewPosition. destruct (finishTime hp); reflexivity. Qed.

Lemma unitStep_mult (m : Q) : 0 < m -> 0 < unitStep m /\ unitStep m * m == 8 # 25.
Proof.
  intros Hm. unfold unitStep, SPEED_DIVISOR.
  assert (Hpos : 0 < 50 * m) by lra.
  assert (Hinv : 0 < / (50 * m)) by (apply Qinv_lt_0_compat; exact Hpos).
  unfold Qdiv. split; [lra|].
  field. intros H. rewrite H in Hm. discriminate.
Qed.

Lemma inject_nat_succ (n : nat) :
  inject_Z (Z.of_nat (S n)) == inject_Z (Z.of_nat n) + 1.
Proof. rewrite Nat2Z.inj_succ, <- Z.add_1_r, inject_Z_plus. reflexivity. Qed.

Lemma inject_nat_nonneg (n : nat) : 0 <= inject_Z (Z.of_nat n).
Proof. change 0 with (inject_Z 0). rewrite <- Zle_Qle. lia. Qed.

(** For a tie-free multiplier, a fast participant still short of the line
    after [n] frames means the slow one cannot reach it in frame [n+1]. *)
Lemma tieFree_no_tie (m : Q) (n : nat) :
  tieFree m ->
  (4#5) * unitStep m * inject_Z (Z.of_nat n) < 100 ->
  (3#5) * unitStep m * (inject_Z (Z.of_nat n) + 1) < 100.
Proof.
  intros Hm Hn.
  assert (Hm0 : 0 < m) by (destruct Hm as [H|[H|H]]; lra).
  destruct (unitStep_mult m Hm0) as [Hk Hkm].
  set (k := unitStep m) in *. set (q := inject_Z (Z.of_nat n)) in *.
  assert (Hq : q == 0 \/ q == 1 \/ q == 2 \/ 3 <= q).
  { subst q. destruct n as [|[|[|n]]]; [left; reflexivity|right; left; reflexivity|
      right; right; left; reflexivity|right; right; right].
    change 3 with (inject_Z 3). rewrite <- Zle_Qle. lia. }
  assert (Hkq : 3 <= q -> 3 * k <= k * q).
  { intros H3. assert (0 <= k * (q - 3)) by (apply Qmult_le_0_compat; lra). nra. }
  destruct Hm as [Ha|[[Hb1 Hb2]|[Hc1 Hc2]]].
  - assert (0 < k * (m - (18 # 3125))) by (apply Qmult_lt_0_compat; lra).
    assert (Hk1 : k * (18 # 3125) < 8 # 25) by nra.
    destruct Hq as [Hq|[Hq|[Hq|Hq]]]; rewrite ?Hq in *; try nra;
      specialize (Hkq Hq); nra.
  - assert (0 < k * (m - (12 # 3125))) by (apply Qmult_lt_0_compat; lra).
    assert (0 <= k * ((16 # 3125) - m)) by (apply Qmult_le_0_compat; lra).
    assert (Hk1 : k * (12 # 3125) < 8 # 25) by nra.
    assert (Hk2 : 8 # 25 <= k * (16 # 3125)) by nra.
    destruct Hq as [Hq|[Hq|[Hq|Hq]]]; rewrite ?Hq in *; try nra;
      specialize (Hkq Hq); nra.
  - assert (0 < k * (m - (6 # 3125))) by (apply Qmult_lt_0_compat; lra).
    assert (0 <= k * ((8 # 3125) - m)) by (apply Qmult_le_0_compat; lra).
    assert (Hk1 : k * (6 # 3125) < 8 # 25) by nra.
    assert (Hk2 : 8 # 25 <= k * (8 # 3125)) by nra.
    destruct Hq as [Hq|[Hq|[Hq|Hq]]]; rewrite ?Hq in *; try nra;
      specialize (Hkq Hq); nra.
Qed.

Lemma raceInv_step (m : Q) (i j : nat) (f : Frame) (rest : list Frame)
    (hf hs : HorsePosition) :
  tieFree m -> raceInput m i j f -> Forall (nowLt f) rest ->
  raceInv (unitStep m) (f :: rest) hf hs ->
  raceInv (unitStep m) rest
    (calculateNewPosition hf (frameDelta f) (frameMultiplier f)
       (frameVariation f i) (frameNow f))
    (calculateNewPosition hs (frameDelta f) (frameMultiplier f)
       (frameVariation f j) (frameNow f)).
Proof.
  intros Hm (Hd & Hmf & Hvi & Hvj) Hlater (Hsf & Hss & Hinv).
  unfold raceInv. rewrite !speed_calculateNewPosition.
  split; [exact Hsf|]. split; [exact Hss|].
  rewrite Hd, Hmf.
  assert (Hm0 : 0 < m) by (destruct Hm as [H|[H|H]]; lra).
  destruct (unitStep_mult m Hm0) as [Hk0 _].
  pose proof (tieFree_no_tie m) as Hnotie.
  set (k := unitStep m) in *.
  destruct Hinv as [(Hff & Hfs & n & Hps0 & Hps & Hpf0 & Hpf) | (tf & Htf & Hnone & Hsome)].
  - (* both still running *)
    rewrite !calculateNewPosition_unfinished by assumption. cbn.
    specialize (Hnotie n Hm ltac:(lra)).
    assert (Hq0 := inject_nat_nonneg n).
    set (q := inject_Z (Z.of_nat n)) in *.
    assert (Emf : moveAmount hf 16 m (frameVariation f i) ==
                  frameVariation f i * k)
      by (unfold moveAmount, k, unitStep; rewrite Hsf; ring).
    assert (Ems : moveAmount hs 16 m (frameVariation f j) ==
                  (1#2) * frameVariation f j * k)
      by (unfold moveAmount, k, unitStep; rewrite Hss; ring).
    set (vi := frameVariation f i) in *. set (vj := frameVariation f j) in *.
    assert (Hmf0 : (8#10) * k <= vi * k) by nra.
    assert (Hms1 : (1#2) * vj * k <= (6#10) * k) by nra.
    assert (Hms0 : 0 <= (1#2) * vj * k) by nra.
    assert (Hslow : position hs + moveAmount hs 16 m vj < 100)
      by (rewrite Ems; nra).
    assert (Hslow_min : js_min (position hs + moveAmount hs 16 m vj) 100 ==
                        position hs + moveAmount hs 16 m vj).
    { destruct (js_min_cases (position hs + moveAmount hs 16 m vj) 100)
        as [[_ ->]|[H _]]; [reflexivity|lra]. }
    assert (Hslow_fin :
      js_ge (js_min (position hs + moveAmount hs 16 m vj) 100) 100 = false).
    { apply js_ge_false. rewrite Hslow_min. exact Hslow. }
    rewrite Hslow_fin, andb_false_r.
    assert (Hlt : js_lt (position hf) 100 = true) by (apply js_lt_true; exact Hpf).
    rewrite Hlt. cbn.
    destruct (Qlt_le_dec (position hf + moveAmount hf 16 m vi) 100)
      as [Hfast|Hfast].
    + (* the fast participant does not reach the line in this frame *)
      assert (Hfast_min : js_min (position hf + moveAmount hf 16 m vi) 100 ==
                          position hf + moveAmount hf 16 m vi).
      { destruct (js_min_cases (position hf + moveAmount hf 16 m vi) 100)
          as [[_ ->]|[H _]]; [reflexivity|lra]. }
      assert (Hfast_fin :
        js_ge (js_min (position hf + moveAmount hf 16 m vi) 100) 100 = false).
      { apply js_ge_false. rewrite Hfast_min. exact Hfast. }
      rewrite Hfast_fin. left. cbn.
      split; [reflexivity|]. split; [reflexivity|].
      exists (S n). rewrite inject_nat_succ. fold q.
      rewrite Hfast_min, Hslow_min, Emf, Ems.
      rewrite Emf in Hfast.
      split; [lra|]. split; [nra|]. split; [nra|lra].
    + (* the fast participant crosses the line in this frame *)
      assert (Hfast_fin :
        js_ge (js_min (position hf + moveAmount hf 16 m vi) 100) 100 = true).
      { apply js_ge_true.
        destruct (js_min_cases (position hf + moveAmount hf 16 m vi) 100)
          as [[H ->]|[H ->]]; [exact Hfast|apply Qle_refl]. }
      rewrite Hfast_fin. right. exists (frameNow f). cbn.
      split; [reflexivity|]. split; [|discriminate].
      intros _. exact Hlater.
  - (* the fast participant has finished *)
    rewrite (calculateNewPosition_finished hf) by congruence.
    right. exists tf. split; [exact Htf|].
    destruct (finishTime hs) as [ts|] eqn:Hhs.
    + rewrite (calculateNewPosition_finished hs) by congruence.
      rewrite Hhs. split; [discriminate|]. exact Hsome.
    + rewrite calculateNewPosition_unfinished by exact Hhs. cbn.
      specialize (Hnone eq_refl). inversion Hnone as [|? ? Hnow Hrest]; subst.
      destruct (_ && _).
      * split; [discriminate|]. intros ts [= <-]. exact Hnow.
      * split; [intros _; exact Hrest|discriminate].
Qed.

Lemma raceInv_run (m : Q) (i j : nat) (frames : list Frame) (hf hs : HorsePosition) :
  tieFree m -> Forall (raceInput m i j) frames -> StronglySorted nowLt frames ->
  raceInv (unitStep m) frames hf hs ->
  forall ts, finishTime (runLane frames j hs) = Some ts ->
  exists tf, finishTime (runLane frames i hf) = Some tf /\ tf < ts.
Proof.
  intros Hm. revert hf hs.
  induction frames as [|f rest IH]; intros hf hs Hin Hsorted Hinv ts Hts; cbn in *.
  - destruct Hinv as (_ & _ & [(_ & Hn & _)|(tf & Htf & _ & Hlt)]).
    + congruence.
    + exists tf. split; [exact Htf|]. apply Hlt, Hts.
  - inversion Hin as [|? ? Hf0 Hrest]; subst.
    apply StronglySorted_inv in Hsorted as [Hs Hf].
    refine (IH _ _ Hrest Hs _ ts Hts).
    eapply raceInv_step; eassumption.
Qed.

Lemma sortByFinishTime_two (x y : HorsePosition) (tx ty : Q) :
  finishTime x = Some tx -> finishTime y = Some ty -> tx < ty ->
  sortByFinishTime [x; y] = [x; y] /\ sortByFinishTime [y; x] = [x; y].
Proof.
  intros Hx Hy Hlt. unfold sortByFinishTime, js_sort. cbn.
  assert (Hxy : finishKey x < finishKey y)
    by (unfold finishKey; rewrite Hx, Hy; exact Hlt).
  split.
  - destruct (js_lt (js_or (finishTime y) 0 - js_or (finishTime x) 0) 0) eqn:E;
      [|reflexivity].
    apply finishCmp_lt in E. lra.
  - destruct (js_lt (js_or (finishTime x) 0 - js_or (finishTime y) 0) 0) eqn:E;
      [reflexivity|].
    apply not_true_iff_false in E. exfalso. apply E, finishCmp_lt, Hxy.
Qed.

(** Claim C9 (as stated): with a small [distanceMultiplier] both
    participants can cross the line in the same frame and get the same
    [finishTime]. With multiplier 1/1000 this happens in the first frame
    and the participant listed first (here the slow one) is ranked first;
    with multipliers 1/300 and 1/180 it happens in frame 2 and frame 3
    when the fast participant draws variation 0.8 and the slow one 1.2. *)
Lemma two_horse_race_same_frame :
  let fast := mkHorsePosition "fast" 0 2 1 None in
  let slow := mkHorsePosition "slow" 0 1 0.5 None in
  let final := runFrames [mkFrame 16 (1#1000) 1 (fun _ => 1)] [slow; fast] in
  let draws := fun lane : nat => if (lane =? 0)%nat then 1.2 else 0.8 in
  let frames := fun m : Q => map (fun t => mkFrame 16 m (inject_Z (Z.of_nat t)) draws)
                                 (seq 1 3) in
  map finishTime final = [Some 1; Some 1] /\
  map RaceResultEntry.horseId (compileRaceResults final [] (Some 0) 1) =
    ["slow"; "fast"]%string /\
  map finishTime (runFrames (frames (1#300)) [slow; fast]) = [Some 2; Some 2] /\
  map finishTime (runFrames (frames (1#180)) [slow; fast]) = [Some 3; Some 3].
Proof. split; [reflexivity|]. split; [reflexivity|]. split; vm_compute; reflexivity. Qed.

(** Claim C9 (amended with a tie-free [distanceMultiplier] [m]: [m >
    18/3125], which includes every scheduled distance, or [m] in
    (12/3125, 16/3125] or (6/3125, 8/3125]): a speed-1 and a speed-0.5
    participant start at 0 without [finishTime], in either lane order,
    and every frame has [deltaTime = 16], the same multiplier, strictly
    increasing [now] and variations in [0.8,1.2].  Whenever the slow one
    has finished, the fast one has a strictly earlier [finishTime] and
    [compileRaceResults] ranks it first with position 1. *)
Theorem two_horse_race_fast_wins (a b : string) (m : Q)
    (frames : list Frame) (fast_first : bool) (horses : list Horse)
    (animationStartTime : option Q) (currentTime : Q) :
  a <> b ->
  18 # 3125 < m \/ (12 # 3125 < m /\ m <= 16 # 3125) \/
  (6 # 3125 < m /\ m <= 8 # 3125) ->
  Forall (fun f => frameDelta f = 16 /\ frameMultiplier f = m /\
            forall i : nat, 0.8 <= frameVariation f i <= 1.2) frames ->
  StronglySorted (fun f g => frameNow f < frameNow g) frames ->
  let fast := mkHorsePosition a 0 1 1 None in
  let slow := mkHorsePosition b 0 2 0.5 None in
  let final := runFrames frames
                 (if fast_first then [fast; slow] else [slow; fast]) in
  forall (hs : HorsePosition) (ts : Q),
    hs ∈ final -> horseId hs = b -> finishTime hs = Some ts ->
    exists hf tf, hf ∈ final /\ horseId hf = a /\ finishTime hf = Some tf /\
      tf < ts /\
      exists e rest,
        compileRaceResults final horses animationStartTime currentTime =
          e :: rest /\
        RaceResultEntry.horseId e = a /\ RaceResultEntry.position e = 1%Z.
Proof.
  intros Hab Hm Hin Hsorted fast slow final hs ts Hmem Hid Hts.
  assert (Hinput : forall i j, Forall (raceInput m i j) frames).
  { intros i j. eapply Forall_impl; [exact Hin|].
    intros f (Hd & Hmf & Hv). repeat split; auto; apply Hv. }
  assert (Hinv0 : raceInv (unitStep m) frames fast slow).
  { split; [reflexivity|]. split; [reflexivity|]. left. cbn.
    split; [reflexivity|]. split; [reflexivity|]. exists 0%nat.
    change (inject_Z (Z.of_nat 0)) with 0.
    split; [apply Qle_refl|]. split; [lra|]. split; [lra|reflexivity]. }
  set (i := if fast_first then 0%nat else 1%nat).
  set (j := if fast_first then 1%nat else 0%nat).
  assert (Hfinal : final = if fast_first
                           then [runLane frames i fast; runLane frames j slow]
                           else [runLane frames j slow; runLane frames i fast]).
  { subst final i j. destruct fast_first; apply runFrames_two. }
  assert (Hhs : hs = runLane frames j slow).
  { rewrite Hfinal in Hmem.
    destruct fast_first; cbn in Hmem;
      repeat (apply elem_of_cons in Hmem as [->|Hmem]);
      try (apply elem_of_nil in Hmem; contradiction);
      try reflexivity;
      rewrite runLane_horseId in Hid; cbn in Hid; congruence. }
  subst hs.
  destruct (raceInv_run m i j frames fast slow Hm (Hinput i j) Hsorted Hinv0 ts Hts)
    as (tf & Htf & Hlt).
  exists (runLane frames i fast), tf.
  split.
  { rewrite Hfinal. destruct fast_first.
    - apply elem_of_cons. left. reflexivity.
    - apply elem_of_cons. right. apply elem_of_cons. left. reflexivity. }
  split; [rewrite runLane_horseId; reflexivity|].
  split; [exact Htf|]. split; [exact Hlt|].
  destruct (sortByFinishTime_two _ _ tf ts Htf Hts Hlt) as [H1 H2].
  assert (Hsort : sortByFinishTime final =
                  [runLane frames i fast; runLane frames j slow]).
  { rewrite Hfinal. destruct fast_first; assumption. }
  unfold compileRaceResults. rewrite Hsort. cbn.
  eexists _, _. split; [reflexivity|]. cbn.
  split; [rewrite runLane_horseId; reflexivity|reflexivity].
Qed.


Lemma frames_now_sorted (g : Q) (v : nat -> Q) (k n : nat) :
  StronglySorted (fun f h => frameNow f < frameNow h)
    (map (fun t => mkFrame 16 g (inject_Z (Z.of_nat t)) v) (seq k n)).
Proof.
  revert k. induction n as [|n IH]; intros k; cbn; constructor; [apply IH|].
  apply Forall_forall. intros f Hf.
  apply list_elem_of_In, in_map_iff in Hf as (t & <- & Ht).
  apply in_seq in Ht. cbn. rewrite <- Zlt_Qlt. lia.
Qed.

Lemma two_horse_race_fast_wins_witness :
  let frames := map (fun t => mkFrame 16 1 (inject_Z (Z.of_nat t)) (fun _ => 1.2))
                    (seq 1 530) in
  let slow_final := runLane frames 1 (mkHorsePosition "slow" 0 2 0.5 None) in
  let final := runFrames frames [mkHorsePosition "fast" 0 1 1 None;
                                 mkHorsePosition "slow" 0 2 0.5 None] in
  "fast"%string <> "slow"%string /\
  (18 # 3125 < 1 \/ (12 # 3125 < 1 /\ 1 <= 16 # 3125) \/
   (6 # 3125 < 1 /\ 1 <= 8 # 3125)) /\
  slow_final ∈ final /\ finishTime slow_final = Some 521 /\
  exists hf tf, hf ∈ final /\ horseId hf = "fast"%string /\
    finishTime hf = Some tf /\ tf < 521 /\
    exists e rest, compileRaceResults final [] None 0 = e :: rest /\
      RaceResultEntry.horseId e = "fast"%string /\
      RaceResultEntry.position e = 1%Z.
Proof.
  intros frames slow_final final.
  assert (Hab : "fast"%string <> "slow"%string) by discriminate.
  assert (Hm : 18 # 3125 < 1 \/ (12 # 3125 < 1 /\ 1 <= 16 # 3125) \/
               (6 # 3125 < 1 /\ 1 <= 8 # 3125)) by (left; reflexivity).
  assert (Hin : Forall (fun f => frameDelta f = 16 /\ frameMultiplier f = 1 /\
                   forall i : nat, 0.8 <= frameVariation f i <= 1.2) frames).
  { apply Forall_forall. intros f Hf. subst frames.
    apply list_elem_of_In, in_map_iff in Hf as (t & <- & _). cbn.
    split; [reflexivity|]. split; [reflexivity|].
    intros _. split; apply Qle_bool_iff; reflexivity. }
  assert (Hmem : slow_final ∈ final).
  { subst final slow_final. rewrite runFrames_two.
    apply elem_of_cons. right. apply elem_of_cons. left. reflexivity. }
  assert (Hts : finishTime slow_final = Some 521) by (vm_compute; reflexivity).
  split; [exact Hab|]. split; [exact Hm|]. split; [exact Hmem|].
  split; [exact Hts|].
  exact (two_horse_race_fast_wins "fast" "slow" 1 frames true [] None 0
           Hab Hm Hin (frames_now_sorted 1 (fun _ => 1.2) 1 530)
           slow_final 521 Hmem eq_refl Hts).
Defined.

Lemma calculateNewPosition_spec_witness :
  let hp := mkHorsePosition "horse_1" 99.9 1 1 None in
  let r := calculateNewPosition hp 16 1 1 5 in
  (0 <= position hp <= 100) /\ 0 <= speed hp /\ (0 <= 16) /\ (0 < 1) /\
  (0.8 <= 1 <= 1.2) /\
  position hp <= position r /\ position r <= 100 /\
  (finishTime hp <> None -> r = hp) /\
  (finishTime hp = None ->
     (position hp < 100 /\ 100 <= position r /\ finishTime r = Some 5) \/
     (~ (position hp < 100 /\ 100 <= position r) /\ finishTime r = None)) /\
  horseId r = horseId hp /\ lane r = lane hp /\ speed r = speed hp.
Proof.
  intros hp r.
  assert (H1 : 0 <= position hp <= 100)
    by (split; apply Qle_bool_iff; reflexivity).
  assert (H2 : 0 <= speed hp) by (apply Qle_bool_iff; reflexivity).
  assert (H3 : 0 <= 16) by (apply Qle_bool_iff; reflexivity).
  assert (H4 : 0 < 1) by reflexivity.
  assert (H5 : 0.8 <= 1 <= 1.2) by (split; apply Qle_bool_iff; reflexivity).
  split; [exact H1|]. split; [exact H2|]. split; [exact H3|].
  split; [exact H4|]. split; [exact H5|].
  exact (calculateNewPosition_spec hp 16 1 1 5 H1 H2 H3 H4 H5).
Defined.

(** ** Store guards and reset *)

Lemma GameState_eqb_true (a b : GameState.t) : GameState.eqb a b = true <-> a = b.
Proof. destruct a, b; cbn; split; congruence. Qed.

Lemma GameState_eqb_false (a b : GameState.t) : GameState.eqb a b = false <-> a <> b.
Proof.
  rewrite <- not_true_iff_false, GameState_eqb_true. reflexivity.
Qed.

(** Claim C4: [startRacing] outside SCHEDULE_READY and [pauseRacing]
    outside RACING leave the whole store unchanged; [resetGame] from any
    state yields the initial state (IDLE, no horses, no schedule, no
    results, round index 0, the initial race execution state). *)
Theorem store_guards_and_reset :
  (forall (now : Q) (st : GameStoreState),
     gameState st <> GameState.SCHEDULE_READY -> startRacing now st = st) /\
  (forall st : GameStoreState,
     gameState st <> GameState.RACING -> pauseRacing st = st) /\
  (forall st : GameStoreState,
     resetGame st = initialState /\
     gameState (resetGame st) = GameState.IDLE /\
     horses (resetGame st) = [] /\ schedule (resetGame st) = None /\
     results (resetGame st) = [] /\ currentRoundIndex (resetGame st) = 0%nat /\
     raceExecution (resetGame st) =
       {| currentRace := None; horsePositions := []; isAnimating := false;
          animationStartTime := None |}).
Proof.
  split; [|split].
  - intros now st H. unfold startRacing.
    apply GameState_eqb_false in H. rewrite H. reflexivity.
  - intros st H. unfold pauseRacing.
    apply GameState_eqb_false in H. rewrite H. reflexivity.
  - intros st. repeat split.
Qed.

(** ** Persistence round trip *)

(** Claim C5: the persisted record holds exactly [gameState], [horses],
    [schedule], [results] and [currentRoundIndex] (no [raceExecution]);
    loading it restores those fields, except that a saved RACING or
    PAUSED becomes SCHEDULE_READY, and every other [gameState] is kept. *)
Theorem persist_round_trip (st current : GameStoreState) :
  partialize st =
    {| p_gameState := gameState st; p_horses := horses st;
       p_schedule := schedule st; p_results := results st;
       p_currentRoundIndex := currentRoundIndex st |} /\
  exists loaded,
    rehydrate (partialize st) current = Some loaded /\
    horses loaded = horses st /\ schedule loaded = schedule st /\
    results loaded = results st /\
    currentRoundIndex loaded = currentRoundIndex st /\
    raceExecution loaded = raceExecution current /\
    ((gameState st = GameState.RACING \/ gameState st = GameState.PAUSED) ->
       gameState loaded = GameState.SCHEDULE_READY) /\
    (gameState st <> GameState.RACING -> gameState st <> GameState.PAUSED ->
       gameState loaded = gameState st).
Proof.
  split; [reflexivity|].
  unfold rehydrate, onRehydrateStorage, mergePersisted, partialize. cbn.
  destruct (gameState st) eqn:E; cbn;
    eexists; (split; [reflexivity|]); cbn;
    repeat split; intros; try reflexivity;
    repeat match goal with H : _ \/ _ |- _ => destruct H end;
    congruence.
Qed.

(** ** Schedule generation *)

Lemma swap_perm {A : Type} (l : list A) (i j : nat) : swap l i j ≡ₚ l.
Proof.
  unfold swap. destruct (l !! i) as [xi|] eqn:Ei; [|reflexivity].
  destruct (l !! j) as [xj|] eqn:Ej; [|reflexivity].
  apply Permutation_insert_swap; assumption.
Qed.

Lemma floor_range (r : Q) (n : Z) :
  0 <= r < 1 -> (0 < n)%Z -> (0 <= Qfloor (r * inject_Z n) < n)%Z.
Proof.
  intros [H0 H1] Hn.
  assert (Hn' : 0 < inject_Z n)
    by (change 0 with (inject_Z 0); rewrite <- Zlt_Qlt; exact Hn).
  split.
  - change 0%Z with (Qfloor 0). apply Qfloor_resp_le. nra.
  - rewrite Zlt_Qlt. eapply Qle_lt_trans; [apply Qfloor_le|]. nra.
Qed.

(** [Math.random()] in [0,1) gives an index [j] with [0 <= j <= i]. *)
Lemma shuffle_index_in_range (r : Q) (i : nat) :
  0 <= r < 1 -> (shuffleIndex r i <= i)%nat.
Proof.
  intros Hr. unfold shuffleIndex.
  pose proof (floor_range r (Z.of_nat i + 1) Hr ltac:(lia)). lia.
Qed.

Lemma shuffleLoop_perm {A : Type} (rnd : nat -> Q) (i : nat) (l : list A) (s : nat) :
  fst (shuffleLoop rnd i l s) ≡ₚ l.
Proof.
  revert l s. induction i as [|i IH]; intros l s; cbn; [reflexivity|].
  rewrite IH. apply swap_perm.
Qed.

Lemma shuffleArray_perm {A : Type} (rnd : nat -> Q) (l : list A) (s : nat) :
  fst (shuffleArray rnd l s) ≡ₚ l.
Proof. apply shuffleLoop_perm. Qed.

Lemma selectRandomHorses_spec (rnd : nat -> Q) (hs : list Horse) (s : nat) :
  length hs = 20%nat -> NoDup (map id hs) ->
  let ids := fst (selectRandomHorses rnd hs s) in
  length ids = 10%nat /\ NoDup ids /\ (forall x, x ∈ ids -> x ∈ map id hs).
Proof.
  intros Hlen Hnd ids. unfold ids, selectRandomHorses.
  pose proof (shuffleArray_perm rnd hs s) as Hp.
  destruct (shuffleArray rnd hs s) as [sh s1]; cbn in *.
  assert (Hpm : map id sh ≡ₚ map id hs) by (apply Permutation_map; exact Hp).
  rewrite <- firstn_map.
  split; [rewrite length_firstn, length_map, (Permutation_length Hp), Hlen; reflexivity|].
  split.
  - eapply sublist_NoDup; [|apply sublist_take]. rewrite Hpm. exact Hnd.
  - intros x Hx. rewrite <- Hpm.
    apply elem_of_take in Hx as (k & Hk & _).
    apply list_elem_of_lookup. eauto.
Qed.

Definition raceShape (hs : list Horse) (r : Race.t) : Prop :=
  length (Race.horseIds r) = 10%nat /\ NoDup (Race.horseIds r) /\
  (forall x, x ∈ Race.horseIds r -> x ∈ map id hs) /\
  Race.status r = RaceStatus.PENDING /\
  Race.startTime r = None /\ Race.endTime r = None.

Lemma createRaces_spec (rnd : nat -> Q) (hs : list Horse) (index : nat)
    (ds : list Z) (s : nat) :
  length hs = 20%nat -> NoDup (map id hs) ->
  let races := fst (createRaces rnd hs index ds s) in
  map Race.distance races = ds /\
  map Race.roundNumber races = map (fun i => Z.of_nat i + 1)%Z (seq index (length ds)) /\
  Forall (raceShape hs) races.
Proof.
  intros Hlen Hnd. revert index s.
  induction ds as [|d ds IH]; intros index s; cbn; [repeat constructor|].
  pose proof (selectRandomHorses_spec rnd hs s Hlen Hnd) as Hsel.
  destruct (selectRandomHorses rnd hs s) as [ids s1]; cbn in Hsel.
  specialize (IH (S index) s1).
  destruct (createRaces rnd hs (S index) ds s1) as [races s2]; cbn in *.
  destruct IH as (H1 & H2 & H3).
  split; [rewrite H1; reflexivity|].
  split; [rewrite H2; reflexivity|].
  constructor; [|exact H3].
  destruct Hsel as (Hl & Hn & Hin).
  repeat split; auto.
Qed.

(** Claim C6: for every roster of 20 horses with distinct ids (and
    [Math.random()] draws in [0,1)), [createRaceSchedule] yields 6 races
    with distances 1200..2200 in order and round numbers 1..6, each with
    10 distinct participant ids taken from the roster, status pending and
    no start or end time. *)
Theorem createRaceSchedule_spec (rnd : nat -> Q) (hs : list Horse) (s : nat) :
  (forall n : nat, 0 <= rnd n < 1) ->
  length hs = 20%nat -> NoDup (map id hs) ->
  let sch := fst (createRaceSchedule rnd hs s) in
  length sch = 6%nat /\
  map Race.distance sch = [1200; 1400; 1600; 1800; 2000; 2200]%Z /\
  map Race.roundNumber sch = [1; 2; 3; 4; 5; 6]%Z /\
  Forall (fun r =>
    length (Race.horseIds r) = 10%nat /\ NoDup (Race.horseIds r) /\
    (forall x, x ∈ Race.horseIds r -> x ∈ map id hs) /\
    Race.status r = RaceStatus.PENDING /\
    Race.startTime r = None /\ Race.endTime r = None) sch.
Proof.
  intros _ Hlen Hnd sch.
  destruct (createRaces_spec rnd hs 0 ROUND_DISTANCES s Hlen Hnd) as (H1 & H2 & H3).
  fold (createRaceSchedule rnd hs s) in H1, H2, H3. fold sch in H1, H2, H3.
  split; [rewrite <- (length_map Race.distance), H1; reflexivity|].
  split; [exact H1|]. split; [exact H2|]. exact H3.
Qed.

Definition sampleRoster : list Horse :=
  map (fun i => mkHorse (generateHorseId i) "Thunder" 50 None) (seq 0 20).

Lemma createRaceSchedule_spec_witness :
  (forall n : nat, 0 <= (fun _ : nat => 0.5) n < 1) /\
  length sampleRoster = 20%nat /\ NoDup (map id sampleRoster) /\
  map Race.distance (fst (createRaceSchedule (fun _ => 0.5) sampleRoster 0))
    = [1200; 1400; 1600; 1800; 2000; 2200]%Z.
Proof.
  assert (Hr : forall n : nat, 0 <= (fun _ : nat => 0.5) n < 1)
    by (intros n; split; apply Qle_bool_iff || reflexivity; reflexivity).
  assert (Hl : length sampleRoster = 20%nat) by reflexivity.
  assert (Hn : NoDup (map id sampleRoster)) by (apply (bool_decide_unpack _); vm_compute; reflexivity).
  split; [exact Hr|]. split; [exact Hl|]. split; [exact Hn|].
  exact (proj1 (proj2 (createRaceSchedule_spec (fun _ => 0.5) sampleRoster 0 Hr Hl Hn))).
Defined.

Lemma randomInt_range (rnd : nat -> Q) (min max : Z) (s : nat) :
  0 <= rnd s < 1 -> (min <= max)%Z ->
  (min <= fst (randomInt rnd min max s) <= max)%Z.
Proof.
  intros Hr Hle. unfold randomInt; cbn [fst].
  pose proof (floor_range (rnd s) (max - min + 1) Hr ltac:(lia)). lia.
Qed.

Lemma buildHorses_spec (rnd : nat -> Q) (sc : list string) (index : nat)
    (names : list string) (s : nat) :
  (forall n : nat, 0 <= rnd n < 1) ->
  let hs := fst (buildHorses rnd sc index names s) in
  length hs = length names /\
  map id hs = map generateHorseId (seq index (length names)) /\
  map color hs = map (fun i => sc !! i) (seq index (length names)) /\
  Forall (fun h => exists z : Z, condition h = inject_Z z /\ (1 <= z <= 100)%Z) hs.
Proof.
  intros Hr. revert index s.
  induction names as [|nm rest IH]; intros index s; [cbn; repeat constructor|cbn [buildHorses length seq]].
  pose proof (randomInt_range rnd 1 100 s (Hr s) ltac:(lia)) as Hc.
  destruct (randomInt rnd 1 100 s) as [cond s1]; cbn in Hc.
  specialize (IH (S index) s1).
  destruct (buildHorses rnd sc (S index) rest s1) as [hs s2]; cbn in *.
  destruct IH as (H1 & H2 & H3 & H4).
  split; [rewrite H1; reflexivity|].
  split; [rewrite H2; reflexivity|].
  split; [rewrite H3; reflexivity|].
  constructor; [exists cond; split; [reflexivity|exact Hc]|exact H4].
Qed.

Lemma map_lookup_seq {A : Type} (l : list A) :
  map (fun i => l !! i) (seq 0 (length l)) = map Some l.
Proof.
  induction l as [|x l IH]; [reflexivity|].
  cbn [length seq map]. rewrite <- seq_shift, map_map, <- IH.
  reflexivity.
Qed.

(** Claim C7: for every sequence of [Math.random()] draws in [0,1),
    [generateHorses] yields exactly 20 horses with pairwise-distinct ids;
    the palette [HORSE_COLORS] has exactly 20 pairwise-distinct colors, the
    horses' colors are, position by position, a shuffle (permutation) of that
    palette, hence all present and pairwise distinct; and every condition is
    an integer within [1,100]. *)
Theorem generateHorses_spec (rnd : nat -> Q) (s : nat) :
  (forall n : nat, 0 <= rnd n < 1) ->
  let hs := fst (generateHorses rnd s) in
  length hs = 20%nat /\ NoDup (map id hs) /\
  length HORSE_COLORS = 20%nat /\ NoDup HORSE_COLORS /\
  (exists shuffled, shuffled ≡ₚ HORSE_COLORS /\ map color hs = map Some shuffled) /\
  NoDup (map color hs) /\
  Forall (fun h => exists z : Z, condition h = inject_Z z /\ (1 <= z <= 100)%Z) hs.
Proof.
  intros Hr hs. unfold hs, generateHorses. cbv zeta.
  assert (Hall : (if (length HORSE_NAMES <? 20)%nat
                  then HORSE_NAMES ++ ["Thunder"%string] else HORSE_NAMES)
                 = HORSE_NAMES ++ ["Thunder"%string]) by reflexivity.
  rewrite Hall.
  pose proof (js_sort_perm (fun _ _ s' => (rnd s' - 0.5, S s')) HORSE_COLORS s) as Hp.
  destruct (js_sort (fun _ _ s' => (rnd s' - 0.5, S s')) HORSE_COLORS s)
    as [sc s1]; cbn in Hp.
  pose proof (buildHorses_spec rnd sc 0 (take 20%nat (HORSE_NAMES ++ ["Thunder"%string])) s1 Hr)
    as (H1 & H2 & H3 & H4).
  assert (Hn : length (take 20%nat (HORSE_NAMES ++ ["Thunder"%string])) = 20%nat)
    by reflexivity.
  rewrite Hn in H1, H2, H3.
  assert (Hpal : NoDup HORSE_COLORS)
    by (apply (bool_decide_unpack _); vm_compute; reflexivity).
  assert (Hsc : length sc = 20%nat) by (rewrite Hp; reflexivity).
  assert (Hcol : map color (fst (buildHorses rnd sc 0
            (take 20%nat (HORSE_NAMES ++ ["Thunder"%string])) s1)) = map Some sc)
    by (rewrite H3, <- Hsc; apply map_lookup_seq).
  split; [exact H1|].
  split; [rewrite H2; apply (bool_decide_unpack _); vm_compute; reflexivity|].
  split; [reflexivity|]. split; [exact Hpal|].
  split; [exists sc; split; [exact Hp|exact Hcol]|].
  split; [|exact H4].
  rewrite Hcol. apply NoDup_fmap_2; [apply _|]. rewrite Hp. exact Hpal.
Qed.

Lemma generateHorses_spec_witness :
  (forall n : nat, 0 <= (fun _ : nat => 0) n < 1) /\
  length (fst (generateHorses (fun _ => 0) 0)) = 20%nat.
Proof.
  assert (Hr : forall n : nat, 0 <= (fun _ : nat => 0) n < 1)
    by (intros n; split; [apply Qle_bool_iff|]; reflexivity).
  split; [exact Hr|].
  exact (proj1 (generateHorses_spec (fun _ => 0) 0 Hr)).
Defined.

(** ** Completing races in order *)

Lemma imap_map_preserve {A B : Type} (g : A -> B) (f : nat -> A -> A) (l : list A) :
  (forall i x, g (f i x) = g x) -> map g (imap f l) = map g l.
Proof.
  revert f. induction l as [|x l IH]; intros f Hf; [reflexivity|].
  cbn. rewrite Hf, IH; [reflexivity|]. intros i y. apply Hf.
Qed.

Lemma lookup_map_some {A B : Type} (g : A -> B) (l : list A) (i : nat) (x : A) :
  l !! i = Some x -> map g l !! i = Some (g x).
Proof.
  revert i. induction l as [|y l IH]; intros [|i] H; cbn in *; try discriminate.
  - congruence.
  - apply IH, H.
Qed.

Lemma completeCurrentRace_step (rr : list RaceResultEntry.t) (now : Q)
    (st : GameStoreState) (sch : list Race.t) (cr race : Race.t) :
  schedule st = Some sch -> currentRace (raceExecution st) = Some cr ->
  sch !! currentRoundIndex st = Some race ->
  exists st' res,
    completeCurrentRace rr now st =
      Some (st', negb (length sch <=? S (currentRoundIndex st))%nat) /\
    results st' = results st ++ [res] /\
    RaceResult.roundNumber res = Race.roundNumber race /\
    RaceResult.distance res = Race.distance race /\
    currentRoundIndex st' = S (currentRoundIndex st) /\
    gameState st' = (if (length sch <=? S (currentRoundIndex st))%nat
                     then GameState.COMPLETED else GameState.RACING) /\
    (exists sch', schedule st' = Some sch' /\
       map Race.roundNumber sch' = map Race.roundNumber sch /\
       map Race.distance sch' = map Race.distance sch).
Proof.
  intros H1 H2 H3. unfold completeCurrentRace. rewrite H1, H2, H3.
  do 2 eexists. split; [reflexivity|].
  cbn [results currentRoundIndex gameState schedule].
  split; [reflexivity|]. split; [reflexivity|]. split; [reflexivity|].
  split; [reflexivity|]. split; [reflexivity|].
  eexists. split; [reflexivity|].
  split; apply imap_map_preserve; intros i x; destruct (i =? _)%nat; reflexivity.
Qed.

Lemma startNextRace_step (now : Q) (st : GameStoreState) (sch : list Race.t)
    (cr : Race.t) :
  schedule st = Some sch -> gameState st = GameState.RACING ->
  sch !! currentRoundIndex st = Some cr ->
  let st' := startNextRace now st in
  (exists sch', schedule st' = Some sch' /\
     map Race.roundNumber sch' = map Race.roundNumber sch /\
     map Race.distance sch' = map Race.distance sch) /\
  gameState st' = GameState.RACING /\
  currentRoundIndex st' = currentRoundIndex st /\
  results st' = results st /\
  currentRace (raceExecution st') <> None.
Proof.
  intros H1 H2 H3 st'. unfold st', startNextRace. rewrite H1, H2. cbn [GameState.eqb negb].
  pose proof (lookup_lt_Some _ _ _ H3) as Hlt.
  rewrite (proj2 (Nat.leb_gt _ _) Hlt), H3. cbn.
  split; [|split; [reflexivity|split; [reflexivity|split; [reflexivity|discriminate]]]].
  eexists. split; [reflexivity|].
  split; apply imap_map_preserve; intros i x; destruct (i =? _)%nat; reflexivity.
Qed.

Definition roundNumbers6 : list Z := [1; 2; 3; 4; 5; 6]%Z.

(** The store between two races of an in-order run: [k] races are done
    and the [k]-th one (from 0) is on the track. *)
Definition roundInv (k : nat) (st : GameStoreState) : Prop :=
  exists sch, schedule st = Some sch /\
    map Race.roundNumber sch = roundNumbers6 /\
    map Race.distance sch = ROUND_DISTANCES /\
    currentRoundIndex st = k /\ (k < 6)%nat /\
    gameState st = GameState.RACING /\
    currentRace (raceExecution st) <> None /\
    map RaceResult.roundNumber (results st) = take k roundNumbers6 /\
    map RaceResult.distance (results st) = take k ROUND_DISTANCES.

Lemma roundInv_play (rounds : list (list RaceResultEntry.t * Q * Q)) (k : nat)
    (st : GameStoreState) :
  roundInv k st -> (k + length rounds = 6)%nat ->
  exists st', playRounds rounds st = Some st' /\
    map RaceResult.roundNumber (results st') = roundNumbers6 /\
    map RaceResult.distance (results st') = ROUND_DISTANCES /\
    gameState st' = GameState.COMPLETED.
Proof.
  revert k st. induction rounds as [|[[rr now] next] rest IH]; intros k st Hinv Hk.
  - destruct Hinv as (sch & _ & _ & _ & _ & Hlt & _). cbn in Hk. lia.
  - destruct Hinv as (sch & Hs & Hrn & Hd & Hi & Hlt & Hg & Hcr & Hres & Hdist).
    destruct (currentRace (raceExecution st)) as [cr|] eqn:Hc; [|congruence].
    assert (Hlen : length sch = 6%nat)
      by (rewrite <- (length_map Race.distance), Hd; reflexivity).
    destruct (lookup_lt_is_Some_2 sch (currentRoundIndex st)) as [race Hrace];
      [rewrite Hlen, Hi; exact Hlt|].
    destruct (completeCurrentRace_step rr now st sch cr race Hs Hc Hrace)
      as (st1 & res & Hcc & Hr1 & Hrn1 & Hd1 & Hi1 & Hg1 & sch1 & Hs1 & Hrn1' & Hd1').
    rewrite Hi in Hrace.
    pose proof (lookup_map_some Race.roundNumber _ _ _ Hrace) as Hrk.
    pose proof (lookup_map_some Race.distance _ _ _ Hrace) as Hdk.
    rewrite Hrn in Hrk. rewrite Hd in Hdk.
    assert (Hres1 : map RaceResult.roundNumber (results st1) = take (S k) roundNumbers6)
      by (rewrite Hr1, map_app, Hres, (take_S_r _ _ _ Hrk); cbn [map]; rewrite Hrn1; reflexivity).
    assert (Hdist1 : map RaceResult.distance (results st1) = take (S k) ROUND_DISTANCES)
      by (rewrite Hr1, map_app, Hdist, (take_S_r _ _ _ Hdk); cbn [map]; rewrite Hd1; reflexivity).
    rewrite Hlen, Hi in Hcc, Hg1. rewrite Hi in Hi1.
    cbn [playRounds]. unfold completeAndContinue. rewrite Hcc.
    destruct (6 <=? S k)%nat eqn:Hend; cbn [negb].
    + apply Nat.leb_le in Hend. destruct rest; cbn in Hk; [|lia].
      exists st1. split; [reflexivity|].
      assert (Hk6 : S k = 6%nat) by lia. rewrite Hk6 in Hres1, Hdist1.
      split; [exact Hres1|]. split; [exact Hdist1|exact Hg1].
    + apply Nat.leb_gt in Hend.
      assert (Hlen1 : length sch1 = 6%nat)
        by (rewrite <- (length_map Race.distance), Hd1', Hd; reflexivity).
      destruct (lookup_lt_is_Some_2 sch1 (currentRoundIndex st1)) as [cr1 Hcr1];
        [rewrite Hlen1, Hi1; exact Hend|].
      destruct (startNextRace_step next st1 sch1 cr1 Hs1 Hg1 Hcr1)
        as ((sch2 & Hs2 & Hrn2 & Hd2) & Hg2 & Hi2 & Hr2 & Hc2).
      apply (IH (S k)); [|cbn in Hk; lia].
      exists sch2. split; [exact Hs2|].
      split; [rewrite Hrn2, Hrn1', Hrn; reflexivity|].
      split; [rewrite Hd2, Hd1', Hd; reflexivity|].
      split; [rewrite Hi2; exact Hi1|]. split; [exact Hend|].
      split; [exact Hg2|]. split; [exact Hc2|].
      rewrite Hr2. split; [exact Hres1|exact Hdist1].
Qed.

Lemma createRaces_roundNumber (rnd : nat -> Q) (hs : list Horse) (index : nat)
    (ds : list Z) (s : nat) :
  map Race.roundNumber (fst (createRaces rnd hs index ds s))
    = map (fun i => Z.of_nat i + 1)%Z (seq index (length ds)) /\
  map Race.distance (fst (createRaces rnd hs index ds s)) = ds.
Proof.
  revert index s. induction ds as [|d ds IH]; intros index s; [split; reflexivity|].
  cbn [createRaces]. destruct (selectRandomHorses rnd hs s) as [ids s1].
  specialize (IH (S index) s1).
  destruct (createRaces rnd hs (S index) ds s1) as [races s2]; cbn in *.
  destruct IH as [IH1 IH2]. rewrite IH1, IH2. split; reflexivity.
Qed.

Lemma generateSchedule_start (rnd : nat -> Q) (s : nat) (stH : GameStoreState)
    (now0 : Q) :
  gameState stH = GameState.HORSES_READY \/ gameState stH = GameState.COMPLETED ->
  roundInv 0 (startRacing now0 (fst (generateSchedule rnd s stH))).
Proof.
  intros Hg.
  assert (Hgen : fst (generateSchedule rnd s stH) =
    {| gameState := GameState.SCHEDULE_READY; horses := horses stH;
       schedule := Some (fst (createRaceSchedule rnd (horses stH) s));
       raceExecution := initialRaceExecution; results := [];
       currentRoundIndex := 0%nat |}).
  { unfold generateSchedule.
    destruct Hg as [Hg|Hg]; rewrite Hg;
      destruct (createRaceSchedule rnd (horses stH) s); reflexivity. }
  rewrite Hgen.
  destruct (createRaces_roundNumber rnd (horses stH) 0 ROUND_DISTANCES s) as [Hrn Hd].
  fold (createRaceSchedule rnd (horses stH) s) in Hrn, Hd.
  set (sch := fst (createRaceSchedule rnd (horses stH) s)) in *.
  assert (Hlen : length sch = 6%nat)
    by (rewrite <- (length_map Race.distance), Hd; reflexivity).
  destruct (lookup_lt_is_Some_2 sch 0) as [cr Hcr]; [rewrite Hlen; lia|].
  unfold startRacing. cbn [gameState GameState.eqb].
  destruct (startNextRace_step now0 (set_gameState GameState.RACING
      {| gameState := GameState.SCHEDULE_READY; horses := horses stH;
         schedule := Some sch; raceExecution := initialRaceExecution;
         results := []; currentRoundIndex := 0%nat |}) sch cr eq_refl eq_refl Hcr)
    as ((sch2 & Hs2 & Hrn2 & Hd2) & Hg2 & Hi2 & Hr2 & Hc2).
  exists sch2. split; [exact Hs2|].
  split; [rewrite Hrn2, Hrn; reflexivity|].
  split; [rewrite Hd2, Hd; reflexivity|].
  split; [exact Hi2|]. split; [lia|]. split; [exact Hg2|]. split; [exact Hc2|].
  rewrite Hr2. split; reflexivity.
Qed.

Definition sampleRace : Race.t :=
  {| Race.roundNumber := 1%Z; Race.distance := 1200%Z; Race.horseIds := [];
     Race.status := RaceStatus.RUNNING; Race.startTime := Some 0;
     Race.endTime := None |}.

(** Counterexample to claim C2: a store with a schedule of one race, a
    current race on the track and [currentRoundIndex = 1] reads
    [schedule[1] = undefined], so [completeCurrentRace] throws instead of
    appending a result record. *)
Lemma completeCurrentRace_index_past_schedule :
  let st := {| gameState := GameState.RACING; horses := [];
               schedule := Some [sampleRace];
               raceExecution := {| currentRace := Some sampleRace;
                                   horsePositions := []; isAnimating := true;
                                   animationStartTime := Some 0 |};
               results := []; currentRoundIndex := 1%nat |} in
  schedule st <> None /\ currentRace (raceExecution st) <> None /\
  completeCurrentRace [] 5 st = None.
Proof.
  cbv zeta. split; [discriminate|]. split; [discriminate|reflexivity].
Qed.

(** Claim C2 (as amended): every [completeCurrentRace] call that finds a
    schedule, a current race and a race at [currentRoundIndex] appends exactly
    one result record carrying that race's round number and distance,
    increases [currentRoundIndex] by one, sets the game state to COMPLETED
    when the new index reaches the schedule length and to RACING (with the
    next race scheduled) otherwise.  Consequently, generating a schedule from
    HORSES_READY or COMPLETED, starting the races and completing 6 races in
    sequence (each followed by the scheduled [startNextRace]) ends with
    exactly 6 results with round numbers 1..6 and distances 1200..2200 in
    order, in game state COMPLETED. *)
Theorem completeCurrentRace_in_order :
  (forall (rr : list RaceResultEntry.t) (now : Q) (st : GameStoreState)
          (sch : list Race.t) (cr race : Race.t),
     schedule st = Some sch -> currentRace (raceExecution st) = Some cr ->
     sch !! currentRoundIndex st = Some race ->
     exists st' b, completeCurrentRace rr now st = Some (st', b) /\
       (exists res, results st' = results st ++ [res] /\
          RaceResult.roundNumber res = Race.roundNumber race /\
          RaceResult.distance res = Race.distance race) /\
       currentRoundIndex st' = S (currentRoundIndex st) /\
       (S (currentRoundIndex st) = length sch -> gameState st' = GameState.COMPLETED) /\
       (S (currentRoundIndex st) < length sch ->
          gameState st' = GameState.RACING /\ b = true)%nat) /\
  (forall (rnd : nat -> Q) (s : nat) (stH : GameStoreState) (now0 : Q)
          (rounds : list (list RaceResultEntry.t * Q * Q)),
     gameState stH = GameState.HORSES_READY \/ gameState stH = GameState.COMPLETED ->
     length rounds = 6%nat ->
     exists st, playRounds rounds (startRacing now0 (fst (generateSchedule rnd s stH)))
                  = Some st /\
       length (results st) = 6%nat /\
       map RaceResult.roundNumber (results st) = [1; 2; 3; 4; 5; 6]%Z /\
       map RaceResult.distance (results st) = [1200; 1400; 1600; 1800; 2000; 2200]%Z /\
       gameState st = GameState.COMPLETED).
Proof.
  split.
  - intros rr now st sch cr race Hs Hc Hr.
    destruct (completeCurrentRace_step rr now st sch cr race Hs Hc Hr)
      as (st' & res & Hcc & Hr1 & Hrn & Hd & Hi & Hg & _).
    exists st', (negb (length sch <=? S (currentRoundIndex st))%nat).
    split; [exact Hcc|]. split; [exists res; auto|]. split; [exact Hi|].
    split.
    + intros Heq. rewrite Hg, <- Heq, Nat.leb_refl. reflexivity.
    + intros Hlt. apply Nat.leb_gt in Hlt. rewrite Hg, Hlt. split; reflexivity.
  - intros rnd s stH now0 rounds Hg Hlen.
    destruct (roundInv_play rounds 0 _ (generateSchedule_start rnd s stH now0 Hg)
                ltac:(rewrite Hlen; reflexivity)) as (st & Hp & Hrn & Hd & Hg').
    exists st. split; [exact Hp|].
    split; [rewrite <- (length_map RaceResult.roundNumber), Hrn; reflexivity|].
    split; [exact Hrn|]. split; [exact Hd|exact Hg'].
Qed.

(** ** Roster lookups ([getHorseById], [getHorsesByIds]) *)

Lemma getHorseById_None (hs : list Horse) (hid : string) :
  getHorseById hs hid = None <-> hid ∉ map id hs.
Proof.
  unfold getHorseById. induction hs as [|h hs IH]; cbn.
  - split; [intros _; apply not_elem_of_nil|reflexivity].
  - rewrite not_elem_of_cons, <- IH.
    destruct (String.eqb (id h) hid) eqn:E.
    + apply String.eqb_eq in E. split; [discriminate|intros [H _]; congruence].
    + apply String.eqb_neq in E. split; [intros H; split; [congruence|exact H]|tauto].
Qed.

Lemma getHorseById_Some (hs : list Horse) (hid : string) (h : Horse) :
  getHorseById hs hid = Some h -> h ∈ hs /\ id h = hid.
Proof.
  unfold getHorseById. induction hs as [|x hs IH]; cbn; [discriminate|].
  destruct (String.eqb (id x) hid) eqn:E.
  - intros [= ->]. apply String.eqb_eq in E. split; [left|exact E].
  - intros H. destruct (IH H) as [Hin Hid]. split; [right; exact Hin|exact Hid].
Qed.

Lemma getHorseById_member (hs : list Horse) (h : Horse) :
  NoDup (map id hs) -> h ∈ hs -> getHorseById hs (id h) = Some h.
Proof.
  unfold getHorseById. induction hs as [|x hs IH]; cbn; intros Hnd Hin.
  - apply not_elem_of_nil in Hin. contradiction.
  - apply NoDup_cons in Hnd as [Hx Hnd].
    apply elem_of_cons in Hin as [->|Hin].
    + rewrite String.eqb_refl. reflexivity.
    + destruct (String.eqb (id x) (id h)) eqn:E.
      * apply String.eqb_eq in E. exfalso. apply Hx. rewrite E.
        apply list_elem_of_In, in_map, list_elem_of_In, Hin.
      * apply IH; assumption.
Qed.

Lemma getHorsesByIds_ids (hs : list Horse) (ids : list string) :
  map id (getHorsesByIds hs ids) =
  List.filter (fun hid => bool_decide (hid ∈ map id hs)) ids.
Proof.
  unfold getHorsesByIds. induction ids as [|hid ids IH]; [reflexivity|].
  cbn [map List.filter].
  destruct (getHorseById hs hid) as [h|] eqn:E; cbn [js_filter_defined map].
  - destruct (getHorseById_Some hs hid h E) as [Hin Hid].
    rewrite bool_decide_true; [rewrite IH, Hid; reflexivity|].
    rewrite <- Hid. apply list_elem_of_In, in_map, list_elem_of_In, Hin.
  - apply getHorseById_None in E. rewrite bool_decide_false by exact E. exact IH.
Qed.

Lemma filter_defined_found (roster l : list Horse) :
  (forall h, h ∈ l -> getHorseById roster (id h) = Some h) ->
  js_filter_defined (map (fun h => getHorseById roster (id h)) l) = l.
Proof.
  induction l as [|h rest IH]; intros Hall; [reflexivity|].
  cbn [map]. rewrite (Hall h ltac:(left)). cbn.
  rewrite IH; [reflexivity|]. intros x Hx. apply Hall. right. exact Hx.
Qed.

Lemma getHorsesByIds_roster (hs : list Horse) :
  NoDup (map id hs) -> getHorsesByIds hs (map id hs) = hs.
Proof.
  intros Hnd. unfold getHorsesByIds. rewrite map_map.
  apply filter_defined_found. intros h. apply getHorseById_member, Hnd.
Qed.

(** ** Lists built with [imap] *)

Lemma map_imap_seq {A B C : Type} (g : B -> C) (f : nat -> A -> B) (k : nat -> C)
    (l : list A) :
  (forall i x, g (f i x) = k i) -> map g (imap f l) = map k (seq 0 (length l)).
Proof.
  revert f k. induction l as [|x l IH]; intros f k Hfk; [reflexivity|].
  cbn [imap map length seq]. rewrite Hfk. f_equal.
  rewrite <- seq_shift, map_map. apply IH. intros i y. apply Hfk.
Qed.

Lemma map_imap_elem {A B C : Type} (g : B -> C) (f : nat -> A -> B) (k : A -> C)
    (l : list A) :
  (forall i x, g (f i x) = k x) -> map g (imap f l) = map k l.
Proof.
  revert f. induction l as [|x l IH]; intros f Hfk; [reflexivity|].
  cbn [imap map]. rewrite Hfk. f_equal. apply IH. intros i y. apply Hfk.
Qed.

Lemma Forall_imap {A B : Type} (P : B -> Prop) (f : nat -> A -> B) (l : list A) :
  (forall i x, l !! i = Some x -> P (f i x)) -> Forall P (imap f l).
Proof.
  revert f. induction l as [|x l IH]; intros f Hf; cbn; constructor.
  - apply (Hf 0%nat x). reflexivity.
  - apply IH. intros i y Hy. apply (Hf (S i) y). exact Hy.
Qed.

Lemma lookup_imap_Some {A B : Type} (f : nat -> A -> B) (l : list A) (i : nat)
    (x : A) :
  l !! i = Some x -> imap f l !! i = Some (f i x).
Proof. intros H. rewrite list_lookup_imap, H. reflexivity. Qed.

(** ** Starting positions ([initializeHorsePositions]) *)

Lemma calculateHorseSpeed_range (c : Q) :
  0 <= c <= 100 -> 1#2 <= calculateHorseSpeed c <= 1.
Proof.
  intros [H0 H1]. unfold calculateHorseSpeed.
  assert (Hc : 0 <= c / 100 <= 1).
  { split.
    - apply Qle_shift_div_l; [reflexivity|]. lra.
    - apply Qle_shift_div_r; [reflexivity|]. lra. }
  lra.
Qed.

(** Extra: [getHorseById] misses exactly the ids absent from the roster;
    a hit is a roster horse carrying the requested id; with unique roster
    ids, every roster horse is found by its own id. *)
Theorem getHorseById_lookup (hs : list Horse) (hid : string) :
  (getHorseById hs hid = None <-> hid ∉ map id hs) /\
  (forall h, getHorseById hs hid = Some h -> h ∈ hs /\ id h = hid) /\
  (NoDup (map id hs) -> forall h, h ∈ hs -> getHorseById hs (id h) = Some h).
Proof.
  split; [apply getHorseById_None|].
  split; [apply getHorseById_Some|].
  intros Hnd h. apply getHorseById_member, Hnd.
Qed.

(** Extra: [getHorsesByIds] returns the horses of the requested ids that
    are in the roster, in the order of the request, silently dropping the
    others; asking for all roster ids (unique) gives back the roster. *)
Theorem getHorsesByIds_order (hs : list Horse) (ids : list string) :
  map id (getHorsesByIds hs ids) =
    List.filter (fun hid => bool_decide (hid ∈ map id hs)) ids /\
  (NoDup (map id hs) -> getHorsesByIds hs (map id hs) = hs).
Proof.
  split; [apply getHorsesByIds_ids|apply getHorsesByIds_roster].
Qed.

(** Extra: [initializeHorsePositions] yields one entry per requested id, in
    order, in lanes 1..N, at position 0 without finish time; the speed comes
    from the roster horse's condition, or is [DEFAULT_HORSE_SPEED] (0.75)
    for an id missing from the roster. *)
Theorem initializeHorsePositions_layout (ids : list string) (hs : list Horse) :
  let ps := initializeHorsePositions ids hs in
  length ps = length ids /\ map horseId ps = ids /\
  map lane ps = map (fun i => Z.of_nat i + 1)%Z (seq 0 (length ids)) /\
  Forall (fun hp => position hp = 0 /\ finishTime hp = None) ps /\
  (forall i hid hp, ids !! i = Some hid -> ps !! i = Some hp ->
     speed hp == match getHorseById hs hid with
                 | Some h => calculateHorseSpeed (condition h)
                 | None => DEFAULT_HORSE_SPEED
                 end).
Proof.
  intros ps. unfold ps, initializeHorsePositions.
  split; [apply length_imap|].
  split; [rewrite (map_imap_elem horseId _ (fun x => x)), map_id; reflexivity|].
  split; [apply map_imap_seq; reflexivity|].
  split; [apply Forall_imap; intros; split; reflexivity|].
  intros i hid hp Hi Hp. rewrite (lookup_imap_Some _ _ _ _ Hi) in Hp.
  injection Hp as <-. cbn [speed]. fold (getHorseById hs hid).
  destruct (getHorseById hs hid); reflexivity.
Qed.

(** Extra: when every roster horse has a condition in [0,100], every
    starting position built by [initializeHorsePositions] has a speed in
    [0.5,1], whether or not its id is found in the roster. *)
Theorem initializeHorsePositions_speed_range (ids : list string) (hs : list Horse) :
  (forall h, h ∈ hs -> 0 <= condition h <= 100) ->
  Forall (fun hp => 1#2 <= speed hp <= 1) (initializeHorsePositions ids hs).
Proof.
  intros Hc. apply Forall_imap. intros i hid _. cbn [speed].
  fold (getHorseById hs hid).
  destruct (getHorseById hs hid) as [h|] eqn:E.
  - apply calculateHorseSpeed_range, Hc. apply (getHorseById_Some _ _ _ E).
  - split; apply Qle_bool_iff; reflexivity.
Qed.

Lemma sampleRoster_conditions :
  forall h, h ∈ sampleRoster -> 0 <= condition h <= 100.
Proof.
  intros h Hin. apply list_elem_of_In in Hin. unfold sampleRoster in Hin.
  apply in_map_iff in Hin as (i & <- & _). cbn.
  split; apply Qle_bool_iff; reflexivity.
Qed.

Lemma initializeHorsePositions_speed_range_witness :
  (forall h, h ∈ sampleRoster -> 0 <= condition h <= 100) /\
  Forall (fun hp => 1#2 <= speed hp <= 1)
    (initializeHorsePositions ["horse_1"; "horse_2"; "unknown"]%string sampleRoster).
Proof.
  split; [exact sampleRoster_conditions|].
  exact (initializeHorsePositions_speed_range _ sampleRoster sampleRoster_conditions).
Defined.

(** Extra: a draw [Math.random()] in [0,1) gives a speed variation
    [generateSpeedVariation()] in [0.8,1.2), and consumes one draw. *)
Theorem generateSpeedVariation_range (rnd : nat -> Q) (s : nat) :
  0 <= rnd s < 1 ->
  4#5 <= fst (generateSpeedVariation rnd s) < 6#5 /\
  snd (generateSpeedVariation rnd s) = S s.
Proof.
  intros [H0 H1]. cbn. split; [|reflexivity].
  split; [lra|]. lra.
Qed.

Lemma generateSpeedVariation_range_witness :
  0 <= (fun _ : nat => 1#2) 0%nat < 1 /\
  4#5 <= fst (generateSpeedVariation (fun _ => 1#2) 0) < 6#5.
Proof.
  assert (H : 0 <= (fun _ : nat => 1#2) 0%nat < 1)
    by (split; [apply Qle_bool_iff|]; reflexivity).
  split; [exact H|].
  exact (proj1 (generateSpeedVariation_range (fun _ => 1#2) 0 H)).
Defined.

(** Extra: every race of every generated schedule has a distance
    multiplier [calculateDistanceMultiplier(distance)] between 1 and 11/6. *)
Theorem schedule_distance_multiplier (rnd : nat -> Q) (hs : list Horse) (s : nat) :
  Forall (fun r => 1 <= calculateDistanceMultiplier (inject_Z (Race.distance r)) <= 11#6)
    (fst (createRaceSchedule rnd hs s)).
Proof.
  destruct (createRaces_roundNumber rnd hs 0 ROUND_DISTANCES s) as [_ Hd].
  fold (createRaceSchedule rnd hs s) in Hd.
  apply (List.Forall_map Race.distance
           (fun d => 1 <= calculateDistanceMultiplier (inject_Z d) <= 11#6)).
  rewrite Hd.
  repeat constructor; apply Qle_bool_iff; reflexivity.
Qed.

(** ** Animation frames over the whole field *)

Lemma imap_imap {A B C : Type} (f : nat -> B -> C) (g : nat -> A -> B) (l : list A) :
  imap f (imap g l) = imap (fun i x => f i (g i x)) l.
Proof.
  revert f g. induction l as [|x l IH]; intros f g; [reflexivity|].
  cbn. f_equal. apply IH.
Qed.

Lemma imap_fixed {A : Type} (f : nat -> A -> A) (l : list A) :
  (forall i x, l !! i = Some x -> f i x = x) -> imap f l = l.
Proof.
  revert f. induction l as [|x l IH]; intros f Hf; [reflexivity|].
  cbn. rewrite (Hf 0%nat x eq_refl). f_equal.
  apply IH. intros i y Hy. apply (Hf (S i) y Hy).
Qed.

Lemma runFrames_imap (frames : list Frame) (ps : list HorsePosition) :
  runFrames frames ps = imap (fun i hp => runLane frames i hp) ps.
Proof.
  revert ps. induction frames as [|f rest IH]; intros ps; cbn.
  - symmetry. apply imap_fixed. reflexivity.
  - rewrite IH. unfold raceFrame. rewrite imap_imap. reflexivity.
Qed.

Lemma checkAllFinished_lookup (ps : list HorsePosition) :
  checkAllFinished ps = true <->
  (forall i hp, ps !! i = Some hp -> finishTime hp <> None).
Proof.
  unfold checkAllFinished. rewrite forallb_forall. split.
  - intros H i hp Hi. apply list_elem_of_lookup_2, list_elem_of_In, H in Hi.
    destruct (finishTime hp); congruence.
  - intros H hp Hin. apply list_elem_of_In, list_elem_of_lookup_1 in Hin as [i Hi].
    specialize (H i hp Hi). destruct (finishTime hp); congruence.
Qed.

(** Frame inputs under which every unfinished participant with speed at
    least 0.5 advances by at least [step]. *)
Definition fast_frame (step : Q) (f : Frame) : Prop :=
  0 < frameMultiplier f /\ 0 <= frameDelta f /\
  (forall i : nat, 4#5 <= frameVariation f i) /\
  step <= (1#2) * (4#5) * (frameDelta f / (SPEED_DIVISOR * frameMultiplier f)).

Definition running_ok (hp : HorsePosition) : Prop :=
  1#2 <= speed hp /\ (finishTime hp = None -> position hp < 100).

Lemma moveAmount_ge (hp : HorsePosition) (dt m v : Q) :
  1#2 <= speed hp -> 4#5 <= v -> 0 <= dt -> 0 < m ->
  (1#2) * (4#5) * (dt / (SPEED_DIVISOR * m)) <= moveAmount hp dt m v.
Proof.
  intros Hs Hv Hd Hm. unfold moveAmount.
  assert (Hq : 0 <= dt / (SPEED_DIVISOR * m)).
  { unfold Qdiv, SPEED_DIVISOR. apply Qmult_le_0_compat; [exact Hd|].
    apply Qlt_le_weak, Qinv_lt_0_compat. nra. }
  apply Qmult_le_compat_r; [|exact Hq]. nra.
Qed.

Lemma calculateNewPosition_advance (step : Q) (f : Frame) (i : nat)
    (hp : HorsePosition) :
  fast_frame step f -> running_ok hp ->
  let hp' := calculateNewPosition hp (frameDelta f) (frameMultiplier f)
               (frameVariation f i) (frameNow f) in
  running_ok hp' /\
  (finishTime hp <> None -> finishTime hp' <> None) /\
  (finishTime hp' = None -> position hp + step <= position hp').
Proof.
  intros (Hm & Hd & Hv & Hstep) (Hs & Hlt) hp'.
  destruct (finishTime hp) as [t|] eqn:Hf.
  - assert (Heq : hp' = hp) by (apply calculateNewPosition_finished; congruence).
    rewrite Heq. split; [split; [exact Hs|rewrite Hf; discriminate]|].
    split; [intros _; rewrite Hf; discriminate|rewrite Hf; discriminate].
  - specialize (Hlt eq_refl).
    pose proof (moveAmount_ge hp (frameDelta f) (frameMultiplier f)
                  (frameVariation f i) Hs (Hv i) Hd Hm) as Hmv.
    unfold hp'. rewrite calculateNewPosition_unfinished by exact Hf.
    cbn [finishTime position speed].
    assert (Hlt' : js_lt (position hp) 100 = true) by (apply js_lt_true; exact Hlt).
    rewrite Hlt'. cbn [andb].
    set (np := js_min _ 100).
    destruct (js_ge np 100) eqn:Hge.
    + split; [split; [exact Hs|discriminate]|].
      split; intros H; discriminate.
    + apply js_ge_false in Hge.
      assert (Hnp : np == position hp + moveAmount hp (frameDelta f)
                      (frameMultiplier f) (frameVariation f i)).
      { unfold np. destruct (js_min_cases (position hp + moveAmount hp
          (frameDelta f) (frameMultiplier f) (frameVariation f i)) 100)
          as [[_ E]|[_ E]]; unfold np in Hge; rewrite E in Hge |- *;
          [reflexivity|lra]. }
      split; [split; [exact Hs|intros _; exact Hge]|].
      split; [intros H; contradiction|intros _; lra].
Qed.

Lemma runLane_advance (step : Q) (frames : list Frame) (i : nat)
    (hp : HorsePosition) :
  Forall (fast_frame step) frames -> running_ok hp ->
  finishTime (runLane frames i hp) = None ->
  position hp + inject_Z (Z.of_nat (length frames)) * step
    <= position (runLane frames i hp) /\
  position (runLane frames i hp) < 100.
Proof.
  revert hp. induction frames as [|f rest IH]; intros hp Hall Hok Hf.
  - cbn [runLane length] in *. change (inject_Z (Z.of_nat 0)) with 0.
    split; [lra|]. apply (proj2 Hok), Hf.
  - inversion Hall as [|? ? Hf0 Hrest]; subst.
    destruct (calculateNewPosition_advance step f i hp Hf0 Hok) as (Hok' & Hkeep & Hadv).
    cbn [runLane] in Hf |- *.
    set (hp' := calculateNewPosition hp (frameDelta f) (frameMultiplier f)
                  (frameVariation f i) (frameNow f)) in *.
    destruct (IH hp' Hrest Hok' Hf) as [H1 H2].
    assert (Hf' : finishTime hp' = None).
    { destruct (finishTime hp') eqn:E; [|reflexivity].
      rewrite runLane_finished in Hf by congruence. congruence. }
    specialize (Hadv Hf').
    split; [|exact H2].
    cbn [length]. rewrite Nat2Z.inj_succ, <- Z.add_1_r, inject_Z_plus.
    rewrite Qmult_plus_distr_l.
    assert (Hq : inject_Z 1 * step == step) by (rewrite Qmult_1_l; reflexivity).
    rewrite Hq. set (X := inject_Z (Z.of_nat (length rest)) * step) in *. lra.
Qed.

(** Extra: once [checkAllFinished] holds, further animation frames change
    nothing: one [raceFrame], and any sequence of frames, returns the
    participant list unchanged. *)
Theorem finished_race_frozen (ps : list HorsePosition) :
  checkAllFinished ps = true ->
  (forall dt m now variation, raceFrame ps dt m now variation = ps) /\
  (forall frames, runFrames frames ps = ps).
Proof.
  intros Hall. pose proof (proj1 (checkAllFinished_lookup ps) Hall) as H.
  split.
  - intros dt m now variation. unfold raceFrame. apply imap_fixed.
    intros i x Hx. apply calculateNewPosition_finished, (H i x Hx).
  - intros frames. rewrite runFrames_imap. apply imap_fixed.
    intros i x Hx. apply runLane_finished, (H i x Hx).
Qed.

Lemma finished_race_frozen_witness :
  checkAllFinished [mkHorsePosition "horse_1" 100 1 1 (Some 5)] = true /\
  runFrames [mkFrame 16 1 20 (fun _ => 1)] [mkHorsePosition "horse_1" 100 1 1 (Some 5)]
    = [mkHorsePosition "horse_1" 100 1 1 (Some 5)].
Proof.
  split; [reflexivity|].
  exact (proj2 (finished_race_frozen [mkHorsePosition "horse_1" 100 1 1 (Some 5)] eq_refl) _).
Defined.

(** Extra (termination of a race): if every participant has speed at
    least 0.5, a non-negative position, and a position below 100 while
    unfinished, and every frame has a positive [distanceMultiplier], a
    non-negative [deltaTime] and speed variations of at least 0.8, so that
    each unfinished participant advances at least [step] per frame, then
    after a number of frames [n] with [n * step >= 100] every participant
    has a finish time ([checkAllFinished] holds). *)
Theorem race_finishes_within_bound (ps : list HorsePosition) (frames : list Frame)
    (step : Q) :
  Forall (fun hp => running_ok hp /\ 0 <= position hp) ps ->
  Forall (fast_frame step) frames ->
  100 <= inject_Z (Z.of_nat (length frames)) * step ->
  checkAllFinished (runFrames frames ps) = true.
Proof.
  intros Hps Hfr Hn. rewrite runFrames_imap.
  apply checkAllFinished_lookup. intros i hp Hi Hnone.
  apply list_lookup_imap_Some in Hi as (y & Hy & ->).
  destruct (Forall_lookup_1 _ _ _ _ Hps Hy) as [Hok Hpos].
  destruct (runLane_advance step frames i y Hfr Hok Hnone) as [H1 H2].
  set (X := inject_Z (Z.of_nat (length frames)) * step) in *. lra.
Qed.

Definition slowFrame : Frame := mkFrame 16 1 0 (fun _ => 4#5).

Lemma race_finishes_within_bound_witness :
  Forall (fun hp => running_ok hp /\ 0 <= position hp)
    [mkHorsePosition "horse_1" 0 1 (1#2) None] /\
  Forall (fast_frame (16#125)) (repeat slowFrame 782) /\
  100 <= inject_Z (Z.of_nat (length (repeat slowFrame 782))) * (16#125) /\
  checkAllFinished (runFrames (repeat slowFrame 782)
                     [mkHorsePosition "horse_1" 0 1 (1#2) None]) = true.
Proof.
  assert (H1 : Forall (fun hp => running_ok hp /\ 0 <= position hp)
                 [mkHorsePosition "horse_1" 0 1 (1#2) None]).
  { constructor; [|constructor].
    split; [split; [apply Qle_bool_iff; reflexivity|intros _; reflexivity]|].
    apply Qle_bool_iff; reflexivity. }
  assert (H2 : Forall (fast_frame (16#125)) (repeat slowFrame 782)).
  { apply Forall_forall. intros f Hf. apply list_elem_of_In, repeat_spec in Hf. subst f.
    split; [reflexivity|]. split; [apply Qle_bool_iff; reflexivity|].
    split; [intros i; apply Qle_refl|]. apply Qle_bool_iff; reflexivity. }
  assert (H3 : 100 <= inject_Z (Z.of_nat (length (repeat slowFrame 782))) * (16#125))
    by (apply Qle_bool_iff; vm_compute; reflexivity).
  split; [exact H1|]. split; [exact H2|]. split; [exact H3|].
  exact (race_finishes_within_bound _ _ _ H1 H2 H3).
Defined.

(** Extra: [compileRaceResults] returns one entry per participant, its
    horse ids being a permutation of the participants' ids; an entry's
    [horse] is missing exactly when its id is absent from the roster, and
    otherwise is the roster horse with that id. *)
Theorem compileRaceResults_entries (ps : list HorsePosition) (hs : list Horse)
    (animationStartTime : option Q) (currentTime : Q) :
  let rs := compileRaceResults ps hs animationStartTime currentTime in
  length rs = length ps /\
  map RaceResultEntry.horseId rs ≡ₚ map horseId ps /\
  Forall (fun e =>
    (RaceResultEntry.horse e = None <-> RaceResultEntry.horseId e ∉ map id hs) /\
    (forall h, RaceResultEntry.horse e = Some h ->
       h ∈ hs /\ id h = RaceResultEntry.horseId e)) rs.
Proof.
  intros rs. unfold rs, compileRaceResults.
  pose proof (js_sort_perm
    (pure_cmp (fun a b => js_or (finishTime a) 0 - js_or (finishTime b) 0))
    ps tt) as Hp.
  fold (sortByFinishTime ps) in Hp.
  split; [rewrite length_imap; apply Permutation_length, Hp|].
  split.
  - rewrite (map_imap_elem _ _ horseId) by reflexivity.
    apply Permutation_map, Hp.
  - apply Forall_imap. intros i hp _. cbn [RaceResultEntry.horse RaceResultEntry.horseId].
    fold (getHorseById hs (horseId hp)).
    split; [apply getHorseById_None|apply getHorseById_Some].
Qed.

(** ** Storing race results *)

Definition positionCmp : RaceResultEntry.t -> RaceResultEntry.t -> unit -> Q * unit :=
  pure_cmp (fun a b =>
    inject_Z (RaceResultEntry.position a - RaceResultEntry.position b)).

Definition posLe (a b : RaceResultEntry.t) : Prop :=
  (RaceResultEntry.position a <= RaceResultEntry.position b)%Z.

Lemma sort_insert_last (x : RaceResultEntry.t) (sorted : list RaceResultEntry.t) :
  Forall (fun y => posLe y x) sorted ->
  sort_insert positionCmp x sorted tt = (sorted ++ [x], tt).
Proof.
  induction sorted as [|y rest IH]; intros Hall; [reflexivity|].
  inversion Hall as [|? ? Hy Hrest]; subst. cbn.
  assert (Hc : js_lt (inject_Z (RaceResultEntry.position x - RaceResultEntry.position y)) 0
               = false).
  { apply js_lt_false. change 0 with (inject_Z 0). rewrite <- Zle_Qle.
    unfold posLe in Hy. lia. }
  rewrite Hc, IH by exact Hrest. reflexivity.
Qed.

Lemma StronglySorted_app_r {A : Type} (R : A -> A -> Prop) (l1 l2 : list A) :
  StronglySorted R (l1 ++ l2) -> StronglySorted R l2 /\
  (forall y z, y ∈ l1 -> z ∈ l2 -> R y z).
Proof.
  induction l1 as [|a l1 IH]; cbn; intros H.
  - split; [exact H|]. intros y z Hy. apply not_elem_of_nil in Hy. contradiction.
  - apply StronglySorted_inv in H as [H Ha]. destruct (IH H) as [H1 H2].
    split; [exact H1|]. intros y z Hy Hz. apply elem_of_cons in Hy as [->|Hy].
    + rewrite Forall_forall in Ha. apply Ha. apply elem_of_app. right. exact Hz.
    + apply H2; assumption.
Qed.

Lemma sort_from_sorted (sorted todo : list RaceResultEntry.t) :
  StronglySorted posLe (sorted ++ todo) ->
  fst (sort_from positionCmp sorted todo tt) = sorted ++ todo.
Proof.
  revert sorted. induction todo as [|x todo IH]; intros sorted Hs; cbn.
  - rewrite app_nil_r. reflexivity.
  - destruct (StronglySorted_app_r posLe sorted (x :: todo) Hs) as [_ Hle].
    rewrite sort_insert_last.
    + rewrite IH; [rewrite <- app_assoc; reflexivity|].
      rewrite <- app_assoc. exact Hs.
    + apply Forall_forall. intros y Hy. apply Hle; [exact Hy|left].
Qed.

Lemma imap_sorted {A : Type} (f : nat -> A -> RaceResultEntry.t) (off : nat)
    (l : list A) :
  (forall i x, RaceResultEntry.position (f i x) = (Z.of_nat (i + off) + 1)%Z) ->
  StronglySorted posLe (imap f l).
Proof.
  revert f off. induction l as [|x l IH]; intros f off Hf; cbn; constructor.
  - apply (IH _ (S off)). intros i y. unfold compose. rewrite Hf. f_equal. lia.
  - apply Forall_imap. intros i y _. unfold posLe, compose. rewrite !Hf. lia.
Qed.

Lemma compileRaceResults_sorted (ps : list HorsePosition) (hs : list Horse)
    (animationStartTime : option Q) (currentTime : Q) :
  StronglySorted posLe (compileRaceResults ps hs animationStartTime currentTime).
Proof.
  apply (imap_sorted _ 0). intros i x. cbn. rewrite Nat.add_0_r. reflexivity.
Qed.

(** Extra: a [completeCurrentRace] call that finds a schedule, a current
    race and the race at [currentRoundIndex] records, as its last result,
    a permutation of the entries it was given, stamped with the call's
    time; entries already in ascending [position] order, in particular the
    output of [compileRaceResults], are recorded exactly as given. *)
Theorem completeCurrentRace_stores_results (rr : list RaceResultEntry.t) (now : Q)
    (st : GameStoreState) (sch : list Race.t) (cr race : Race.t) :
  schedule st = Some sch -> currentRace (raceExecution st) = Some cr ->
  sch !! currentRoundIndex st = Some race ->
  exists st' b res, completeCurrentRace rr now st = Some (st', b) /\
    results st' = results st ++ [res] /\
    RaceResult.results res ≡ₚ rr /\ RaceResult.completedAt res = now /\
    (StronglySorted posLe rr -> RaceResult.results res = rr) /\
    (forall ps hs ast t, rr = compileRaceResults ps hs ast t ->
       RaceResult.results res = rr).
Proof.
  intros Hs Hc Hr. unfold completeCurrentRace. rewrite Hs, Hc, Hr.
  do 3 eexists. split; [reflexivity|]. split; [reflexivity|].
  cbn [RaceResult.results RaceResult.completedAt].
  split; [apply js_sort_perm|]. split; [reflexivity|].
  assert (Hsorted : StronglySorted posLe rr ->
    fst (js_sort (pure_cmp (fun a b =>
      inject_Z (RaceResultEntry.position a - RaceResultEntry.position b))) rr tt) = rr)
    by (intros H; apply (sort_from_sorted []), H).
  split; [exact Hsorted|].
  intros ps hs ast t ->. apply Hsorted, compileRaceResults_sorted.
Qed.

Definition oneRaceState : GameStoreState :=
  {| gameState := GameState.RACING; horses := sampleRoster;
     schedule := Some [sampleRace];
     raceExecution := {| currentRace := Some sampleRace; horsePositions := [];
                         isAnimating := true; animationStartTime := Some 0 |};
     results := []; currentRoundIndex := 0%nat |}.

Lemma completeCurrentRace_stores_results_witness :
  schedule oneRaceState = Some [sampleRace] /\
  currentRace (raceExecution oneRaceState) = Some sampleRace /\
  [sampleRace] !! currentRoundIndex oneRaceState = Some sampleRace /\
  exists st' b res, completeCurrentRace [] 7 oneRaceState = Some (st', b) /\
    results st' = results oneRaceState ++ [res].
Proof.
  split; [reflexivity|]. split; [reflexivity|]. split; [reflexivity|].
  destruct (completeCurrentRace_stores_results [] 7 oneRaceState [sampleRace]
              sampleRace sampleRace eq_refl eq_refl eq_refl)
    as (st' & b & res & H1 & H2 & _).
  exists st', b, res. split; [exact H1|exact H2].
Defined.

(** ** Store transitions on the schedule *)

(** Extra: [completeCurrentRace] does nothing (and schedules nothing)
    without a schedule or without a current race; otherwise it marks the
    race at [currentRoundIndex] COMPLETED with end time [now], leaves every
    other race of the schedule as it was, clears the race execution state
    and keeps the roster. *)
Theorem completeCurrentRace_marks_race (rr : list RaceResultEntry.t) (now : Q)
    (st : GameStoreState) :
  (schedule st = None \/ currentRace (raceExecution st) = None ->
     completeCurrentRace rr now st = Some (st, false)) /\
  (forall sch race, schedule st = Some sch -> currentRace (raceExecution st) <> None ->
     sch !! currentRoundIndex st = Some race ->
     exists st' b sch', completeCurrentRace rr now st = Some (st', b) /\
       schedule st' = Some sch' /\ length sch' = length sch /\
       sch' !! currentRoundIndex st =
         Some {| Race.roundNumber := Race.roundNumber race;
                 Race.distance := Race.distance race;
                 Race.horseIds := Race.horseIds race;
                 Race.status := RaceStatus.COMPLETED;
                 Race.startTime := Race.startTime race;
                 Race.endTime := Some now |} /\
       (forall j, j <> currentRoundIndex st -> sch' !! j = sch !! j) /\
       raceExecution st' = initialRaceExecution /\ horses st' = horses st).
Proof.
  split.
  - intros [H|H]; unfold completeCurrentRace; rewrite H; [reflexivity|].
    destruct (schedule st); reflexivity.
  - intros sch race Hs Hc Hr.
    destruct (currentRace (raceExecution st)) as [cr|] eqn:Hcr; [|congruence].
    unfold completeCurrentRace. rewrite Hs, Hcr, Hr.
    do 3 eexists. split; [reflexivity|]. split; [reflexivity|].
    split; [apply length_imap|].
    split; [rewrite list_lookup_imap, Hr; cbn; rewrite Nat.eqb_refl; reflexivity|].
    split; [|split; reflexivity].
    intros j Hj. rewrite list_lookup_imap. destruct (sch !! j); [|reflexivity].
    cbn. rewrite (proj2 (Nat.eqb_neq _ _) Hj). reflexivity.
Qed.

(** Extra: [startNextRace] does nothing without a schedule or outside
    RACING; past the last race it only sets the game state to COMPLETED;
    otherwise it marks the race at [currentRoundIndex] RUNNING with start
    time [now] (the other races untouched, so [selectCurrentRace] returns
    it), puts it on the track with the starting positions of its
    participants, animating with an animation start time set (read from
    the clock separately from the race's start time), and changes nothing
    else. *)
Theorem startNextRace_effects (now : Q) (st : GameStoreState) :
  (schedule st = None \/ gameState st <> GameState.RACING -> startNextRace now st = st) /\
  (forall sch, schedule st = Some sch -> gameState st = GameState.RACING ->
     (length sch <= currentRoundIndex st)%nat ->
     startNextRace now st = set_gameState GameState.COMPLETED st) /\
  (forall sch race, schedule st = Some sch -> gameState st = GameState.RACING ->
     sch !! currentRoundIndex st = Some race ->
     let st' := startNextRace now st in
     let running := {| Race.roundNumber := Race.roundNumber race;
                       Race.distance := Race.distance race;
                       Race.horseIds := Race.horseIds race;
                       Race.status := RaceStatus.RUNNING;
                       Race.startTime := Some now;
                       Race.endTime := Race.endTime race |} in
     (exists sch', schedule st' = Some sch' /\ length sch' = length sch /\
        sch' !! currentRoundIndex st = Some running /\
        (forall j, j <> currentRoundIndex st -> sch' !! j = sch !! j)) /\
     selectCurrentRace st' = Some running /\
     currentRace (raceExecution st') = Some (withStatus race RaceStatus.RUNNING) /\
     horsePositions (raceExecution st') =
       initializeHorsePositions (Race.horseIds race) (horses st) /\
     isAnimating (raceExecution st') = true /\
     animationStartTime (raceExecution st') <> None /\
     gameState st' = GameState.RACING /\ currentRoundIndex st' = currentRoundIndex st /\
     results st' = results st /\ horses st' = horses st).
Proof.
  split; [|split].
  - intros [H|H]; unfold startNextRace; rewrite ?H; [reflexivity|].
    destruct (schedule st); [|reflexivity].
    apply GameState_eqb_false in H. rewrite H. reflexivity.
  - intros sch Hs Hg Hle. unfold startNextRace. rewrite Hs, Hg.
    cbn [GameState.eqb negb]. apply Nat.leb_le in Hle. rewrite Hle. reflexivity.
  - intros sch race Hs Hg Hr st' running.
    pose proof (lookup_lt_Some _ _ _ Hr) as Hlt.
    assert (Hst' : st' =
      {| gameState := gameState st; horses := horses st;
         schedule := Some (imap (fun index race =>
           if (index =? currentRoundIndex st)%nat
           then {| Race.roundNumber := Race.roundNumber race;
                   Race.distance := Race.distance race;
                   Race.horseIds := Race.horseIds race;
                   Race.status := RaceStatus.RUNNING;
                   Race.startTime := Some now;
                   Race.endTime := Race.endTime race |}
           else race) sch);
         raceExecution :=
           {| currentRace := Some (withStatus race RaceStatus.RUNNING);
              horsePositions := initializeHorsePositions (Race.horseIds race) (horses st);
              isAnimating := true; animationStartTime := Some now |};
         results := results st; currentRoundIndex := currentRoundIndex st |}).
    { unfold st', startNextRace. rewrite Hs, Hg. cbn [GameState.eqb negb].
      rewrite (proj2 (Nat.leb_gt _ _) Hlt), Hr. reflexivity. }
    assert (Hat : imap (fun index race =>
           if (index =? currentRoundIndex st)%nat
           then {| Race.roundNumber := Race.roundNumber race;
                   Race.distance := Race.distance race;
                   Race.horseIds := Race.horseIds race;
                   Race.status := RaceStatus.RUNNING;
                   Race.startTime := Some now;
                   Race.endTime := Race.endTime race |}
           else race) sch !! currentRoundIndex st = Some running).
    { rewrite list_lookup_imap, Hr. cbn. rewrite Nat.eqb_refl. reflexivity. }
    rewrite Hst'. split.
    + eexists. split; [reflexivity|]. split; [apply length_imap|].
      split; [exact Hat|].
      intros j Hj. rewrite list_lookup_imap. destruct (sch !! j); [|reflexivity].
      cbn. rewrite (proj2 (Nat.eqb_neq _ _) Hj). reflexivity.
    + split; [exact Hat|]. split; [reflexivity|]. split; [reflexivity|].
      split; [reflexivity|]. split; [discriminate|]. split; [exact Hg|].
      split; [reflexivity|split; reflexivity].
Qed.

(** Extra: [resumeRacing] does nothing outside PAUSED; pausing a running
    race and resuming it gives back exactly the store it started from
    (positions, current race and start time included), and so does
    resuming a paused race and pausing it again. *)
Theorem pause_resume_round_trip :
  (forall st, gameState st <> GameState.PAUSED -> resumeRacing st = st) /\
  (forall st, gameState st = GameState.RACING -> isAnimating (raceExecution st) = true ->
     resumeRacing (pauseRacing st) = st) /\
  (forall st, gameState st = GameState.PAUSED -> isAnimating (raceExecution st) = false ->
     pauseRacing (resumeRacing st) = st).
Proof.
  split; [|split].
  - intros st H. unfold resumeRacing. apply GameState_eqb_false in H.
    rewrite H. reflexivity.
  - intros [g h sc [cr hp ia ast] r k] Hg Ha; cbn in Hg, Ha; subst. reflexivity.
  - intros [g h sc [cr hp ia ast] r k] Hg Ha; cbn in Hg, Ha; subst. reflexivity.
Qed.

(** Extra: [generateSchedule] leaves the store and the random draws
    untouched exactly when [selectCanGenerateSchedule] is false; when it is
    true it installs a fresh schedule for the current roster, clears the
    results, the round index and the race execution state, and moves to
    SCHEDULE_READY, where [selectCanStartRace] holds. *)
Theorem generateSchedule_guard (rnd : nat -> Q) (s : nat) (st : GameStoreState) :
  (selectCanGenerateSchedule st = false -> generateSchedule rnd s st = (st, s)) /\
  (selectCanGenerateSchedule st = true ->
     let st' := fst (generateSchedule rnd s st) in
     gameState st' = GameState.SCHEDULE_READY /\ selectCanStartRace st' = true /\
     schedule st' = Some (fst (createRaceSchedule rnd (horses st) s)) /\
     horses st' = horses st /\ results st' = [] /\
     currentRoundIndex st' = 0%nat /\ raceExecution st' = initialRaceExecution).
Proof.
  unfold selectCanGenerateSchedule, generateSchedule.
  split; intros H; destruct (gameState st); cbn in H; try discriminate;
    try reflexivity;
    destruct (createRaceSchedule rnd (horses st) s);
    repeat split.
Qed.

(** ** A new game up to the first race on the track *)

Lemma generateHorses_roster (rnd : nat -> Q) (s : nat) :
  (forall n : nat, 0 <= rnd n < 1) ->
  let hs := fst (generateHorses rnd s) in
  length hs = 20%nat /\ NoDup (map id hs) /\
  Forall (fun h => 1 <= condition h <= 100) hs.
Proof.
  intros Hr hs. unfold hs, generateHorses. cbv zeta.
  assert (Hall : (if (length HORSE_NAMES <? 20)%nat
                  then HORSE_NAMES ++ ["Thunder"%string] else HORSE_NAMES)
                 = HORSE_NAMES ++ ["Thunder"%string]) by reflexivity.
  rewrite Hall.
  destruct (js_sort (fun _ _ s' => (rnd s' - 0.5, S s')) HORSE_COLORS s) as [sc s1].
  pose proof (buildHorses_spec rnd sc 0 (take 20%nat (HORSE_NAMES ++ ["Thunder"%string])) s1 Hr)
    as (H1 & H2 & _ & H4).
  assert (Hn : length (take 20%nat (HORSE_NAMES ++ ["Thunder"%string])) = 20%nat)
    by reflexivity.
  rewrite Hn in H1, H2.
  split; [exact H1|].
  split; [rewrite H2; apply (bool_decide_unpack _); vm_compute; reflexivity|].
  eapply Forall_impl; [exact H4|]. intros h (z & -> & Hz).
  split; [change 1 with (inject_Z 1)|change 100 with (inject_Z 100)];
    rewrite <- Zle_Qle; lia.
Qed.

(** Extra: starting a new game ([initializeHorses], then
    [generateSchedule], then [startRacing]) with draws in [0,1) puts the
    store in RACING at round index 0 with no results and 20 horses; the
    current race is round 1 over 1200m, RUNNING since [now]; its 10
    starting positions have pairwise-distinct horse ids, each found in the
    roster with its speed derived from that horse's condition and lying in
    [0.5,1], all at position 0 without finish time. *)
Theorem new_game_first_race (rnd : nat -> Q) (s : nat) (st : GameStoreState) (now : Q) :
  (forall n : nat, 0 <= rnd n < 1) ->
  let st1 := fst (initializeHorses rnd s st) in
  let st2 := fst (generateSchedule rnd (snd (initializeHorses rnd s st)) st1) in
  let st3 := startRacing now st2 in
  gameState st3 = GameState.RACING /\ currentRoundIndex st3 = 0%nat /\
  results st3 = [] /\ length (horses st3) = 20%nat /\
  (exists race, selectCurrentRace st3 = Some race /\
     Race.roundNumber race = 1%Z /\ Race.distance race = 1200%Z /\
     Race.status race = RaceStatus.RUNNING /\ Race.startTime race = Some now) /\
  length (horsePositions (raceExecution st3)) = 10%nat /\
  NoDup (map horseId (horsePositions (raceExecution st3))) /\
  Forall (fun hp =>
    (exists h, h ∈ horses st3 /\ id h = horseId hp /\
               speed hp == calculateHorseSpeed (condition h)) /\
    position hp = 0 /\ finishTime hp = None /\ 1#2 <= speed hp <= 1)
    (horsePositions (raceExecution st3)).
Proof.
  intros Hr st1 st2 st3.
  pose proof (generateHorses_roster rnd s Hr) as (Hlen & Hnd & Hcond).
  destruct (generateHorses rnd s) as [hs s1] eqn:Eg. cbn [fst] in Hlen, Hnd, Hcond.
  pose proof (createRaces_spec rnd hs 0 ROUND_DISTANCES s1 Hlen Hnd) as (Hd & Hrn & Hsh).
  fold (createRaceSchedule rnd hs s1) in Hd, Hrn, Hsh.
  destruct (createRaceSchedule rnd hs s1) as [sch s2] eqn:Ec. cbn [fst] in Hd, Hrn, Hsh.
  destruct sch as [|race0 rest]; [discriminate Hd|].
  cbn in Hd, Hrn. injection Hd as Hd0 _. injection Hrn as Hrn0 _.
  inversion Hsh as [|? ? Hshape _]; subst.
  destruct Hshape as (Hl10 & Hnd10 & Hsub & Hpend & _).
  unfold st3, st2, st1. unfold initializeHorses. rewrite Eg. cbn [fst snd].
  unfold generateSchedule. cbn [gameState horses]. rewrite Ec. cbn [fst].
  unfold startRacing, startNextRace.
  cbn [fst snd GameState.eqb gameState set_gameState schedule negb length
       currentRoundIndex Nat.leb lookup list_lookup horses results raceExecution
       horsePositions].
  split; [reflexivity|]. split; [reflexivity|]. split; [reflexivity|].
  split; [exact Hlen|].
  split.
  { eexists. split; [reflexivity|]. cbn.
    split; [exact Hrn0|]. split; [exact Hd0|]. split; reflexivity. }
  unfold initializeHorsePositions.
  split; [rewrite length_imap; exact Hl10|].
  split; [rewrite (map_imap_elem horseId _ (fun x => x)), map_id; [exact Hnd10|reflexivity]|].
  apply Forall_imap. intros i hid Hi. cbn [horseId position finishTime speed].
  fold (getHorseById hs hid).
  assert (Hin : hid ∈ map id hs) by (apply Hsub, list_elem_of_lookup_2 with i, Hi).
  destruct (getHorseById hs hid) as [h|] eqn:E.
  - destruct (getHorseById_Some hs hid h E) as [Hh Hid].
    split; [exists h; split; [exact Hh|split; [exact Hid|reflexivity]]|].
    split; [reflexivity|]. split; [reflexivity|].
    apply calculateHorseSpeed_range.
    rewrite Forall_forall in Hcond. specialize (Hcond h Hh). lra.
  - apply getHorseById_None in E. contradiction.
Qed.

Lemma new_game_first_race_witness :
  (forall n : nat, 0 <= (fun _ : nat => 0) n < 1) /\
  gameState (startRacing 0 (fst (generateSchedule (fun _ => 0)
     (snd (initializeHorses (fun _ => 0) 0 initialState))
     (fst (initializeHorses (fun _ => 0) 0 initialState))))) = GameState.RACING.
Proof.
  assert (Hr : forall n : nat, 0 <= (fun _ : nat => 0) n < 1)
    by (intros n; split; [apply Qle_bool_iff|]; reflexivity).
  split; [exact Hr|].
  exact (proj1 (new_game_first_race (fun _ => 0) 0 initialState 0 Hr)).
Defined.

(** Extra: reloading a store saved during a race (RACING or PAUSED) whose
    saved round index points into the saved schedule gives SCHEDULE_READY,
    where [selectCanStartRace] holds; [startRacing] then resumes at the
    saved round (not at round 1), keeping the saved results, and puts the
    interrupted race back on the track from the starting positions. *)
Theorem reload_mid_race_resumes_round (p : PersistedState) (current : GameStoreState)
    (now : Q) (sch : list Race.t) (race : Race.t) :
  p_gameState p = GameState.RACING \/ p_gameState p = GameState.PAUSED ->
  p_schedule p = Some sch -> sch !! p_currentRoundIndex p = Some race ->
  exists st, rehydrate p current = Some st /\
    gameState st = GameState.SCHEDULE_READY /\ selectCanStartRace st = true /\
    let st' := startRacing now st in
    gameState st' = GameState.RACING /\
    currentRoundIndex st' = p_currentRoundIndex p /\ results st' = p_results p /\
    currentRace (raceExecution st') = Some (withStatus race RaceStatus.RUNNING) /\
    horsePositions (raceExecution st') =
      initializeHorsePositions (Race.horseIds race) (p_horses p).
Proof.
  intros Hg Hs Hr.
  exists (set_gameState GameState.SCHEDULE_READY (mergePersisted p current)).
  split.
  { unfold rehydrate, onRehydrateStorage. cbn [gameState mergePersisted].
    destruct Hg as [H|H]; rewrite H; reflexivity. }
  split; [reflexivity|]. split; [reflexivity|].
  pose proof (lookup_lt_Some _ _ _ Hr) as Hlt.
  unfold startRacing, startNextRace.
  cbn [GameState.eqb gameState set_gameState schedule mergePersisted negb
       currentRoundIndex horses].
  rewrite Hs. cbn [negb GameState.eqb].
  rewrite (proj2 (Nat.leb_gt _ _) Hlt), Hr.
  split; [reflexivity|]. split; [reflexivity|]. split; [reflexivity|].
  split; reflexivity.
Qed.

Lemma reload_mid_race_resumes_round_witness :
  let p := {| p_gameState := GameState.PAUSED; p_horses := sampleRoster;
              p_schedule := Some [sampleRace]; p_results := [];
              p_currentRoundIndex := 0%nat |} in
  (p_gameState p = GameState.RACING \/ p_gameState p = GameState.PAUSED) /\
  p_schedule p = Some [sampleRace] /\
  [sampleRace] !! p_currentRoundIndex p = Some sampleRace /\
  exists st, rehydrate p initialState = Some st /\ selectCanStartRace st = true.
Proof.
  cbv zeta. split; [right; reflexivity|]. split; [reflexivity|].
  split; [reflexivity|].
  destruct (reload_mid_race_resumes_round
              {| p_gameState := GameState.PAUSED; p_horses := sampleRoster;
                 p_schedule := Some [sampleRace]; p_results := [];
                 p_currentRoundIndex := 0%nat |} initialState 0 [sampleRace]
              sampleRace (or_intror eq_refl) eq_refl eq_refl)
    as (st & H1 & _ & H2 & _).
  exists st. split; [exact H1|exact H2].
Defined.

Lemma shuffleLoop_draws {A : Type} (rnd : nat -> Q) (i : nat) (l : list A) (s : nat) :
  snd (shuffleLoop rnd i l s) = (s + i)%nat.
Proof.
  revert l s. induction i as [|i IH]; intros l s; cbn; [lia|].
  rewrite IH. lia.
Qed.

Lemma selectRandomHorses_general (rnd : nat -> Q) (hs : list Horse) (s : nat) :
  NoDup (map id hs) ->
  let '(ids, s1) := selectRandomHorses rnd hs s in
  length ids = Nat.min 10 (length hs) /\ NoDup ids /\
  (forall x, x ∈ ids -> x ∈ map id hs) /\ s1 = (s + (length hs - 1))%nat.
Proof.
  intros Hnd. unfold selectRandomHorses.
  pose proof (shuffleArray_perm rnd hs s) as Hp.
  pose proof (shuffleLoop_draws rnd (length hs - 1) hs s) as Hdr.
  fold (shuffleArray rnd hs s) in Hdr.
  destruct (shuffleArray rnd hs s) as [sh s1]; cbn in Hp, Hdr.
  assert (Hpm : map id sh ≡ₚ map id hs) by (apply Permutation_map; exact Hp).
  rewrite <- firstn_map.
  split; [rewrite length_firstn, length_map, (Permutation_length Hp); reflexivity|].
  split; [|split; [|exact Hdr]].
  - eapply sublist_NoDup; [|apply sublist_take]. rewrite Hpm. exact Hnd.
  - intros x Hx. rewrite <- Hpm.
    apply elem_of_take in Hx as (k & Hk & _).
    apply list_elem_of_lookup. eauto.
Qed.

(** Extra: for a roster of any size [n] with distinct ids and draws in
    [0,1), [selectRandomHorses] returns [min(10, n)] pairwise-distinct ids
    of roster horses (all of them when [n <= 10], none for an empty
    roster) and consumes [n - 1] draws of [Math.random()] (none when
    [n <= 1]). *)
Theorem selectRandomHorses_any_roster (rnd : nat -> Q) (hs : list Horse) (s : nat) :
  (forall n : nat, 0 <= rnd n < 1) -> NoDup (map id hs) ->
  let '(ids, s1) := selectRandomHorses rnd hs s in
  length ids = Nat.min 10 (length hs) /\ NoDup ids /\
  (forall x, x ∈ ids -> x ∈ map id hs) /\ s1 = (s + (length hs - 1))%nat.
Proof. intros _. apply selectRandomHorses_general. Qed.

Lemma selectRandomHorses_any_roster_witness :
  (forall n : nat, 0 <= (fun _ : nat => 0) n < 1) /\
  NoDup (map id (take 3 sampleRoster)) /\
  length (fst (selectRandomHorses (fun _ => 0) (take 3 sampleRoster) 0)) = 3%nat.
Proof.
  assert (Hr : forall n : nat, 0 <= (fun _ : nat => 0) n < 1)
    by (intros n; split; [apply Qle_bool_iff|]; reflexivity).
  assert (Hn : NoDup (map id (take 3 sampleRoster)))
    by (apply (bool_decide_unpack _); vm_compute; reflexivity).
  split; [exact Hr|]. split; [exact Hn|].
  pose proof (selectRandomHorses_any_roster (fun _ => 0) (take 3 sampleRoster) 0 Hr Hn)
    as H.
  destruct (selectRandomHorses (fun _ => 0) (take 3 sampleRoster) 0) as [ids s1].
  exact (proj1 H).
Defined.

Lemma createRaces_general (rnd : nat -> Q) (hs : list Horse) (index : nat)
    (ds : list Z) (s : nat) :
  NoDup (map id hs) ->
  let '(races, s1) := createRaces rnd hs index ds s in
  length races = length ds /\
  map Race.distance races = ds /\
  Forall (fun r => length (Race.horseIds r) = Nat.min 10 (length hs) /\
                   NoDup (Race.horseIds r) /\
                   (forall x, x ∈ Race.horseIds r -> x ∈ map id hs) /\
                   Race.status r = RaceStatus.PENDING) races /\
  s1 = (s + length ds * (length hs - 1))%nat.
Proof.
  intros Hnd. revert index s.
  induction ds as [|d ds IH]; intros index s; cbn; [repeat constructor; lia|].
  pose proof (selectRandomHorses_general rnd hs s Hnd) as Hsel.
  destruct (selectRandomHorses rnd hs s) as [ids s1].
  destruct Hsel as (Hl & Hn & Hin & ->).
  specialize (IH (S index) (s + (length hs - 1))%nat).
  destruct (createRaces rnd hs (S index) ds (s + (length hs - 1))) as [races s2].
  destruct IH as (H1 & H2 & H3 & H4).
  split; [cbn; rewrite H1; reflexivity|].
  split; [cbn; rewrite H2; reflexivity|].
  split; [constructor; [repeat split; assumption|exact H3]|].
  rewrite H4. lia.
Qed.

(** Extra: for a roster of any size [n] with distinct ids (empty or
    smaller than 10 included) and draws in [0,1), [createRaceSchedule]
    still yields the 6 pending races over 1200..2200m, each with
    [min(10, n)] pairwise-distinct roster ids, and consumes [6 * (n - 1)]
    draws of [Math.random()]. *)
Theorem createRaceSchedule_any_roster (rnd : nat -> Q) (hs : list Horse) (s : nat) :
  (forall n : nat, 0 <= rnd n < 1) -> NoDup (map id hs) ->
  let '(sch, s1) := createRaceSchedule rnd hs s in
  length sch = 6%nat /\
  map Race.distance sch = [1200; 1400; 1600; 1800; 2000; 2200]%Z /\
  Forall (fun r => length (Race.horseIds r) = Nat.min 10 (length hs) /\
                   NoDup (Race.horseIds r) /\
                   (forall x, x ∈ Race.horseIds r -> x ∈ map id hs) /\
                   Race.status r = RaceStatus.PENDING) sch /\
  s1 = (s + 6 * (length hs - 1))%nat.
Proof.
  intros _ Hnd. unfold createRaceSchedule.
  exact (createRaces_general rnd hs 0 ROUND_DISTANCES s Hnd).
Qed.

Lemma createRaceSchedule_any_roster_witness :
  (forall n : nat, 0 <= (fun _ : nat => 0) n < 1) /\
  NoDup (map id (@nil Horse)) /\
  length (fst (createRaceSchedule (fun _ => 0) [] 0)) = 6%nat.
Proof.
  assert (Hr : forall n : nat, 0 <= (fun _ : nat => 0) n < 1)
    by (intros n; split; [apply Qle_bool_iff|]; reflexivity).
  assert (Hn : NoDup (map id (@nil Horse))) by constructor.
  split; [exact Hr|]. split; [exact Hn|].
  pose proof (createRaceSchedule_any_roster (fun _ => 0) [] 0 Hr Hn) as H.
  destruct (createRaceSchedule (fun _ => 0) [] 0) as [sch s1].
  exact (proj1 H).
Defined.
